(** * jon-make: target registry, dependency resolver and sequential executor

    A shallow embedding of the module [src/Target.js]: the process-wide
    registry [all_targets], the registration function [target], the resolver
    [pick_target_and_dependencies] and the executor [evaluate].

    Modelling conventions.

    - [all_targets] is a JavaScript object used as a map from target name to
      target record.  It is represented by the list of its own properties in
      creation order; since the only write is [all_targets[rtn.name] = rtn],
      the key of a property is always the [name] of the record it holds, so
      the list holds the records only.  A name that is not an own property
      is looked up in [Object.prototype]; the name [__proto__] is assumed not
      to be registered.
    - [Object.keys] enumerates array-index keys first, in ascending numeric
      order, and the remaining keys in creation order.
    - [picked] is a [Set] of strings: a [gset string].
    - The resolver recurses on a bound that [evaluate] sets to one more than
      the number of registered targets; [resolve_total] shows that the bound
      is never reached, so that every call of the resolver returns or throws.
    - A promise is represented by the way it settles.  An action is a function
      of the process state (working directory and program heap) returning how
      the call settles together with the state it leaves behind; every call
      of an action is assumed to settle.  The [action] of a record does not
      write to [all_targets]; [evaluate_with] runs the chain for actions
      that do, and records are not mutated once they are registered.
    - [target] is called with an argument object whose properties are plain
      data and whose [name] is a string; [target_call] adds the call without
      an argument object.
    - [process.chdir] is assumed to succeed.  Calling it with a value that was
      read from [process.cwd()] (an absolute path) sets the working directory
      to exactly that value. *)

From Stdlib Require Import Ascii.
From stdpp Require Import sorting.
From stdpp Require Import base tactics option list sets gmap strings relations numbers.

Set Warnings "-clear-no-such-hyp".

Open Scope string_scope.
Open Scope list_scope.
Open Scope nat_scope.

(** ** Data model *)

(** [TargetOptionsType]: the execution options of a target. *)
Record TargetOptionsType : Type := {
  target_path : option string;
  interactive : option bool
}.

(** JavaScript truthiness of an optional string: [undefined] and the empty
    string are falsy. *)
Definition truthy (s : option string) : bool :=
  match s with
  | Some (String _ _) => true
  | _ => false
  end.

Section Make.

(** The program heap that actions may read and write, and the values (other
    than [Error] objects) that an action may throw or reject with. *)
Context {Heap Val : Type}.

(** [path.resolve]-style resolution of a path against a directory, as
    performed by [process.chdir]. *)
Context (path_resolve : string → string → string).

Record World : Type := {
  cwd : string;
  heap : Heap
}.

(** A thrown value or rejection reason: an [Error] object, a [TypeError]
    object raised by the language itself, or any other value. *)
Inductive Thrown : Type :=
| Error (message : string)
| TypeError (message : string)
| Raised (v : Val).

(** How a call [target.action()] ends: it returns a value or a promise that
    fulfils, it throws synchronously, or it returns a promise that rejects. *)
Inductive Settlement : Type :=
| Fulfils
| Throws (error : Thrown)
| Rejects (error : Thrown).

Definition Action : Type := World → Settlement * World.

(** [TargetType]. *)
Record TargetType : Type := {
  name : string;
  depends : list string;
  action : Action;
  options : TargetOptionsType
}.

(** ** The registry object [all_targets] *)

Definition Registry : Type := list TargetType.

(** The record that [all_targets] holds as its own property [key], if it
    has such a property. *)
Fixpoint get (all_targets : Registry) (key : string) : option TargetType :=
  match all_targets with
  | [] => None
  | t :: rest => if decide (name t = key) then Some t else get rest key
  end.

(** The names of the members that [all_targets], created as [{}], inherits
    from [Object.prototype]. *)
Definition inherited_member (key : string) : bool :=
  bool_decide (key ∈ ["constructor"; "__defineGetter__"; "__defineSetter__";
                      "hasOwnProperty"; "__lookupGetter__"; "__lookupSetter__";
                      "isPrototypeOf"; "propertyIsEnumerable"; "toString";
                      "valueOf"; "__proto__"; "toLocaleString"]).

(** What the expression [all_targets[key]] evaluates to: the record stored
    under [key], a member inherited from [Object.prototype] (a function or
    an object, truthy and without a [depends] property), or [undefined]. *)
Inductive Property : Type :=
| Own (target : TargetType)
| Inherited
| Undefined.

Definition property (all_targets : Registry) (key : string) : Property :=
  match get all_targets key with
  | Some target => Own target
  | None => if inherited_member key then Inherited else Undefined
  end.

(** [all_targets[rtn.name] = rtn] for a name other than [__proto__]: an
    existing property keeps its place and gets the new value, a new property
    is created last.  (Assigning to [__proto__] would replace the prototype
    of the object and create no property.) *)
Fixpoint set_property (rtn : TargetType) (all_targets : Registry) : Registry :=
  match all_targets with
  | [] => [rtn]
  | t :: rest =>
      if decide (name t = name rtn) then rtn :: rest
      else t :: set_property rtn rest
  end.

(** Array indices: canonical decimal numerals below [2^32 - 1]. *)
Definition digit (a : ascii) : option N :=
  let n := N_of_ascii a in
  if decide (48 ≤ n ∧ n ≤ 57)%N then Some (n - 48)%N else None.

Fixpoint digits (acc : N) (s : string) : option N :=
  match s with
  | EmptyString => Some acc
  | String a s' => d ← digit a; digits (10 * acc + d)%N s'
  end.

Definition array_index (key : string) : option N :=
  match key with
  | EmptyString => None
  | String "0" EmptyString => Some 0%N
  | String "0" _ => None
  | _ => n ← digits 0 key; if decide (n < 2 ^ 32 - 1)%N then Some n else None
  end.

Definition index_le (k1 k2 : N * string) : Prop := (k1.1 ≤ k2.1)%N.

Local Instance index_le_dec : RelDecision index_le :=
  λ k1 k2, decide (k1.1 ≤ k2.1)%N.

(** [Object.keys(all_targets)]. *)
Definition Object_keys (all_targets : Registry) : list string :=
  let names := name <$> all_targets in
  (snd <$> merge_sort index_le
              (omap (λ k, (λ i, (i, k)) <$> array_index k) names))
  ++ filter (λ k, array_index k = None) names.

(** ** Registration *)

(** The argument object of [target]: plain data properties, the [name] a
    string; an absent field takes its default. *)
Record TargetArgs : Type := {
  arg_name : string;
  arg_depends : option (list string);
  arg_options : option TargetOptionsType;
  arg_action : option Action
}.

(** [function() {}]. *)
Definition noop : Action := λ w, (Fulfils, w).

Definition empty_options : TargetOptionsType :=
  {| target_path := None; interactive := None |}.

(** [target({name, depends = [], options = {}, action = function() {}})]:
    returns [rtn] and the registry after [all_targets[rtn.name] = rtn]. *)
Definition target (args : TargetArgs) (all_targets : Registry)
  : TargetType * Registry :=
  let rtn := {| name := arg_name args;
                depends := default [] (arg_depends args);
                action := default noop (arg_action args);
                options := default empty_options (arg_options args) |} in
  (rtn, set_property rtn all_targets).

(** A call of [target] as a makefile can write it: with an argument object,
    whose properties are plain data and whose [name] is a string other than
    [__proto__], or without one.  The parameter is destructured before the
    body runs, so that [target()] rejects with a [TypeError] and writes
    nothing; with an argument object the call returns [rtn]. *)
Definition not_destructurable : Thrown :=
  TypeError
    "Cannot destructure property 'name' of 'undefined' as it is undefined.".

Definition target_call (args : option TargetArgs) (all_targets : Registry)
  : (Thrown + TargetType) * Registry :=
  match args with
  | Some args =>
      let '(rtn, all_targets') := target args all_targets in
      (inr rtn, all_targets')
  | None => (inl not_destructurable, all_targets)
  end.

(** ** Resolution *)

(** Result of a resolver call: the returned array with the [picked] set as
    the call leaves it, or the value thrown.  [OutOfFuel] is an artefact of
    the recursion bound and is shown never to occur. *)
Inductive Picked : Type :=
| OutOfFuel
| Throw (error : Thrown)
| Return (rtn : list TargetType) (picked : gset string).

(** [names.forEach((n) => { rtn.push(...visit(n, picked)); })]. *)
Fixpoint push_each (visit : string → gset string → Picked)
    (names : list string) (rtn : list TargetType) (picked : gset string)
  : Picked :=
  match names with
  | [] => Return rtn picked
  | n :: names' =>
      match visit n picked with
      | Return r picked' => push_each visit names' (rtn ++ r) picked'
      | OutOfFuel => OutOfFuel
      | Throw e => Throw e
      end
  end.

Definition dont_know (target_name : string) : Thrown :=
  Error ("don't know how to build " +:+ target_name).

(** What [target.depends.forEach(...)] throws when [target.depends] is
    [undefined]. *)
Definition no_depends : Thrown :=
  TypeError "Cannot read properties of undefined (reading 'forEach')".

Fixpoint pick_target_and_dependencies (fuel : nat) (all_targets : Registry)
    (target_name : string) (picked : gset string) : Picked :=
  match fuel with
  | 0 => OutOfFuel
  | S fuel' =>
      match property all_targets target_name with
      | Own target =>
          if decide (target_name ∈ picked) then Return [] picked
          else
            match push_each (pick_target_and_dependencies fuel' all_targets)
                    (depends target) [] ({[target_name]} ∪ picked) with
            | Return rtn picked' => Return (rtn ++ [target]) picked'
            | OutOfFuel => OutOfFuel
            | Throw e => Throw e
            end
      | Inherited =>
          if decide (target_name ∈ picked) then Return [] picked
          else Throw no_depends
      | Undefined => Throw (dont_know target_name)
      end
  end.

(** [selected]: the registry keys kept by the filter of [evaluate]. *)
Definition selected (all_targets : Registry) (target_names : list string)
  : list string :=
  filter (λ key, length target_names = 0 ∨ key ∈ target_names)
         (Object_keys all_targets).

(** The first half of [evaluate]: the array [required]. *)
Definition resolve (all_targets : Registry) (target_names : list string)
  : Picked :=
  push_each (pick_target_and_dependencies (S (length all_targets)) all_targets)
            (selected all_targets target_names) [] ∅.

(** ** Execution *)

(** [process.chdir(path)] for a path given by the build definition. *)
Definition chdir (path : string) (w : World) : World :=
  {| cwd := path_resolve (cwd w) path; heap := heap w |}.

(** [process.chdir(current_dir)] for [current_dir] read from
    [process.cwd()]. *)
Definition chdir_back (current_dir : string) (w : World) : World :=
  {| cwd := current_dir; heap := heap w |}.

(** [if(target.options.target_path) process.chdir(target.options.target_path)] *)
Definition enter (target : TargetType) (w : World) : World :=
  match target_path (options target) with
  | Some p => if truthy (Some p) then chdir p w else w
  | None => w
  end.

(** [if(target.options.target_path) process.chdir(current_dir)] *)
Definition leave (target : TargetType) (current_dir : string) (w : World)
  : World :=
  if truthy (target_path (options target)) then chdir_back current_dir w
  else w.

(** What is observed of one link of [task_chain]: the target, the working
    directory before the link starts, the working directory in which the
    action is called, how the action settles, and the working directory when
    the promise of the link settles. *)
Record Event : Type := {
  ev_target : TargetType;
  ev_before : string;
  ev_during : string;
  ev_settlement : Settlement;
  ev_after : string
}.

(** The promise built for one target.  The [then] and [catch] handlers run
    only when [target.action()] has returned; when the call throws, the
    exception leaves the executor function, which rejects the promise. *)
Definition run_target (target : TargetType) (w : World) : Event * World :=
  let current_dir := cwd w in
  let w1 := enter target w in
  let '(s, w2) := action target w1 in
  let w3 := match s with
            | Fulfils => leave target current_dir w2
            | Rejects _ => leave target current_dir w2
            | Throws _ => w2
            end in
  ({| ev_target := target; ev_before := current_dir; ev_during := cwd w1;
      ev_settlement := s; ev_after := cwd w3 |}, w3).

(** How the promise returned by [evaluate] settles. *)
Inductive Outcome : Type :=
| Accepted (results : option TargetType)
| Rejected (error : Thrown).

(** [task_chain]: each link starts when the one before has been accepted, a
    rejected link skips all the links after it. *)
Fixpoint task_chain (required : list TargetType) (results : option TargetType)
    (w : World) : Outcome * World * list Event :=
  match required with
  | [] => (Accepted results, w, [])
  | target :: rest =>
      let '(ev, w') := run_target target w in
      match ev_settlement ev with
      | Fulfils =>
          let '(o, w'', evs) := task_chain rest (Some target) w' in
          (o, w'', ev :: evs)
      | Throws e => (Rejected e, w', [ev])
      | Rejects e => (Rejected e, w', [ev])
      end
  end.

(** The state of the process: the module-level registry and the world that
    actions act on. *)
Record State : Type := {
  all_targets : Registry;
  process : World
}.

(** [evaluate(target_names = [])]: the settlement of the returned promise,
    the state afterwards and the links of the chain that ran.  [None] stands
    for a resolver that exceeds the recursion bound. *)
Definition evaluate (target_names : option (list string)) (st : State)
  : option (Outcome * State * list Event) :=
  match resolve (all_targets st) (default [] target_names) with
  | OutOfFuel => None
  | Throw e => Some (Rejected e, st, [])
  | Return required _ =>
      let '(o, w, evs) := task_chain required None (process st) in
      Some (o, {| all_targets := all_targets st; process := w |}, evs)
  end.

(** *** Actions that write the registry

    The action of a target is JavaScript code and may itself call [target].
    [Effect] is what a call of an action does to the whole process state, the
    registry included; [evaluate_with] is [evaluate] with every action given
    as such an effect.  The array [required] is built before the first link
    runs, from the registry as it is when [evaluate] is called. *)
Definition Effect : Type := State → Settlement * State.

(** An action that acts on the working directory and the heap only. *)
Definition confined (action : Action) : Effect :=
  λ st, let '(s, w) := action (process st) in
        (s, {| all_targets := all_targets st; process := w |}).

Definition on_process (f : World → World) (st : State) : State :=
  {| all_targets := all_targets st; process := f (process st) |}.

Definition run_target_with (effect : TargetType → Effect)
    (target : TargetType) (st : State) : Event * State :=
  let current_dir := cwd (process st) in
  let st1 := on_process (enter target) st in
  let '(s, st2) := effect target st1 in
  let st3 := match s with
             | Fulfils => on_process (leave target current_dir) st2
             | Rejects _ => on_process (leave target current_dir) st2
             | Throws _ => st2
             end in
  ({| ev_target := target; ev_before := current_dir;
      ev_during := cwd (process st1);
      ev_settlement := s; ev_after := cwd (process st3) |}, st3).

Fixpoint task_chain_with (effect : TargetType → Effect)
    (required : list TargetType) (results : option TargetType) (st : State)
  : Outcome * State * list Event :=
  match required with
  | [] => (Accepted results, st, [])
  | target :: rest =>
      let '(ev, st') := run_target_with effect target st in
      match ev_settlement ev with
      | Fulfils =>
          let '(o, st'', evs) := task_chain_with effect rest (Some target) st' in
          (o, st'', ev :: evs)
      | Throws e => (Rejected e, st', [ev])
      | Rejects e => (Rejected e, st', [ev])
      end
  end.

Definition evaluate_with (effect : TargetType → Effect)
    (target_names : option (list string)) (st : State)
  : option (Outcome * State * list Event) :=
  match resolve (all_targets st) (default [] target_names) with
  | OutOfFuel => None
  | Throw e => Some (Rejected e, st, [])
  | Return required _ => Some (task_chain_with effect required None st)
  end.

End Make.

Arguments World : clear implicits.
Arguments Thrown : clear implicits.
Arguments Settlement : clear implicits.
Arguments Action : clear implicits.
Arguments TargetType : clear implicits.
Arguments Registry : clear implicits.
Arguments TargetArgs : clear implicits.
Arguments Picked : clear implicits.
Arguments Event : clear implicits.
Arguments Outcome : clear implicits.
Arguments State : clear implicits.
Arguments Effect : clear implicits.

(** ** Notions used to state the properties *)

Section Notions.
Context {Heap Val : Type}.
Variable reg : Registry Heap Val.
Implicit Types (t : TargetType Heap Val) (rtn : list (TargetType Heap Val)).
Implicit Types (picked : gset string) (n d x : string).
Implicit Types (ev : Event Heap Val) (e : Thrown Val).

(** [edge a b]: the target registered as [a] lists [b] in its [depends]. *)
Definition edge (a b : string) : Prop :=
  ∃ t, get reg a = Some t ∧ b ∈ depends t.

(** [a] depends on [b] directly or transitively, or [a] is [b]. *)
Definition reaches (a b : string) : Prop := rtc edge a b.

(** What a returning visit has done: [rtn] holds the targets it added to
    [picked], each of them registered and found from a name satisfying [P],
    with all its dependencies picked.  A dependency of a target of [rtn] was
    picked before the visit, or stands earlier in [rtn], or was still being
    visited, in which case it reaches the target. *)
Record visited (P : string → Prop) picked rtn picked' : Prop := {
  v_picked : ∀ x, x ∈ picked' ↔ x ∈ picked ∨ x ∈ name <$> rtn;
  v_nodup : NoDup (name <$> rtn);
  v_fresh : ∀ x, x ∈ name <$> rtn → x ∉ picked;
  v_get : ∀ t, t ∈ rtn → get reg (name t) = Some t;
  v_from : ∀ t, t ∈ rtn → P (name t);
  v_closed : ∀ t d, t ∈ rtn → d ∈ depends t → d ∈ picked';
  v_order : ∀ j t d, rtn !! j = Some t → d ∈ depends t →
      d ∈ picked
      ∨ (∃ i t', i < j ∧ rtn !! i = Some t' ∧ name t' = d)
      ∨ reaches d (name t)
}.

(** A set of picked names that holds every name listed by a registered
    target it holds. *)
Definition closed picked : Prop :=
  ∀ x t d, x ∈ picked → get reg x = Some t → d ∈ depends t → d ∈ picked.

(** The number of registered names that are not in [picked]. *)
Definition unpicked picked : nat :=
  size (list_to_set (name <$> reg) ∖ picked : gset string).

(** [x] is one of the roots or a direct or transitive dependency of one. *)
Definition from_roots (roots : list string) (x : string) : Prop :=
  ∃ n, n ∈ roots ∧ reaches n x.

(** The array [rtn] as a resolver result, when there is one. *)
Definition returned (p : Picked Heap Val) : option (list (TargetType Heap Val)) :=
  match p with
  | Return rtn _ => Some rtn
  | _ => None
  end.

(** The names of the targets of [rtn], in order. *)
Definition returned_names (p : Picked Heap Val) : option (list string) :=
  match returned p with
  | Some rtn => Some (name <$> rtn)
  | None => None
  end.

(** The value thrown by the resolver, when it throws. *)
Definition thrown (p : Picked Heap Val) : option (Thrown Val) :=
  match p with
  | Throw e => Some e
  | _ => None
  end.

(** The ordering property as the resolver's documentation words it: a
    registered dependency stands before the target that lists it. *)
Definition dependencies_first (required : list (TargetType Heap Val)) : Prop :=
  ∀ j T D (dep : TargetType Heap Val),
    required !! j = Some T → D ∈ depends T → get reg D = Some dep →
    ∃ i, i < j ∧ required !! i = Some dep.

(** The ordering property that holds of every result: it exempts a
    dependency that itself depends on the target that lists it. *)
Definition dependencies_first_unless_cyclic
    (required : list (TargetType Heap Val)) : Prop :=
  ∀ j T D, required !! j = Some T → D ∈ depends T → ¬ reaches D (name T) →
    ∃ i dep, i < j ∧ get reg D = Some dep ∧ required !! i = Some dep.

(** The action of the link failed with [e]. *)
Definition failed ev e : Prop :=
  ev_settlement ev = Throws e ∨ ev_settlement ev = Rejects e.

(** The action of the link threw before returning. *)
Definition threw ev : Prop := ∃ e, ev_settlement ev = Throws e.

(** The traversal as the specification words it: the requested names are
    visited themselves, from left to right. *)
Definition spec_resolve_left_to_right (root_names : list string)
  : Picked Heap Val :=
  push_each (pick_target_and_dependencies (S (length reg)) reg) root_names [] ∅.

End Notions.

(** ** A small build definition used in the examples *)
Module Demo.

Definition resolve_dir (dir path : string) : string := dir +:+ "/" +:+ path.

Definition mk (n : string) (deps : list string) : TargetType unit string :=
  {| name := n; depends := deps; action := noop; options := empty_options |}.

Definition start : World unit := {| cwd := "/w"; heap := tt |}.

Definition state (reg : Registry unit string) : State unit string :=
  {| all_targets := reg; process := start |}.

(** The event of a link whose action is [noop], run in [/w]. *)
Definition quiet (t : TargetType unit string) : Event unit string :=
  {| ev_target := t; ev_before := "/w"; ev_during := "/w";
     ev_settlement := Fulfils; ev_after := "/w" |}.

(** A chain: [C] needs [A] and [B], [B] needs [A]. *)
Definition A := mk "A" [].
Definition B := mk "B" ["A"].
Definition C := mk "C" ["A"; "B"].
Definition registry : Registry unit string := [A; B; C].

(** Two targets that list each other. *)
Definition A_needs_B := mk "A" ["B"].
Definition B_needs_A := mk "B" ["A"].
Definition cyclic : Registry unit string := [A_needs_B; B_needs_A].

(** The same cycle with a [B] whose action rejects, and [C]. *)
Definition B_needs_A_rejecting : TargetType unit string :=
  {| name := "B"; depends := ["A"];
     action := λ w, (Rejects (Raised "exit status 2"), w);
     options := empty_options |}.
Definition cyclic_failing : Registry unit string :=
  [A_needs_B; B_needs_A_rejecting; C].

(** Two roots, [app] and [doc], that share the dependency [lib]. *)
Definition lib := mk "lib" [].
Definition gen := mk "gen" [].
Definition app := mk "app" ["lib"].
Definition doc := mk "doc" ["gen"; "lib"].
Definition shared : Registry unit string := [lib; gen; app; doc].

(** A target run in the directory [sub] whose action throws before it
    returns, and one whose action returns a promise that rejects. *)
Definition in_sub : TargetOptionsType :=
  {| target_path := Some "sub"; interactive := None |}.
Definition throwing : TargetType unit string :=
  {| name := "A"; depends := [];
     action := λ w, (Throws (Error "boom"), w); options := in_sub |}.
Definition rejecting : TargetType unit string :=
  {| name := "A"; depends := [];
     action := λ w, (Rejects (Error "boom"), w); options := in_sub |}.

(** The chain again, with a [B] whose action rejects. *)
Definition B_rejecting : TargetType unit string :=
  {| name := "B"; depends := ["A"];
     action := λ w, (Rejects (Raised "exit status 2"), w);
     options := empty_options |}.
Definition failing : Registry unit string := [A; B_rejecting; C].
Definition B_rejected : Event unit string :=
  {| ev_target := B_rejecting; ev_before := "/w"; ev_during := "/w";
     ev_settlement := Rejects (Raised "exit status 2"); ev_after := "/w" |}.

(** A target that lists a name nobody registered. *)
Definition D := mk "D" ["A"; "missing"].
Definition incomplete : Registry unit string := [A; D].

(** A target that lists a name nobody registered and that [Object.prototype]
    has a member for. *)
Definition A_needs_toString := mk "A" ["toString"].
Definition reading_prototype : Registry unit string := [A_needs_toString].

(** An action of [A] that registers a target [Z]; every other action is
    the [action] of its record. *)
Definition declare_Z : TargetArgs unit string :=
  {| arg_name := "Z"; arg_depends := None; arg_options := None;
     arg_action := None |}.
Definition Z := mk "Z" [].
Definition registering (t : TargetType unit string) : Effect unit string :=
  if decide (name t = "A") then
    λ st, (Fulfils, {| all_targets := (target declare_Z (all_targets st)).2;
                       process := process st |})
  else confined (action t).

End Demo.

(** ** The command line: [execute] *)

Section Cli.
Context {Heap Val : Type}.

(** [path.resolve], as before, and [String(v)] for a thrown value that is not
    an [Error] object. *)
Variable path_resolve : string → string → string.
Variable to_string : Val → string.

(** The registry after a sequence of [target] calls. *)
Definition register_all (calls : list (TargetArgs Heap Val))
    (all_targets : Registry Heap Val) : Registry Heap Val :=
  foldl (λ reg args, (target args reg).2) all_targets calls.

(** [all_targets_keys.map((key) => Target.all_targets[key])]; every key of
    the object has a value. *)
Definition all_targets_values (all_targets : Registry Heap Val)
  : list (TargetType Heap Val) :=
  omap (get all_targets) (Object_keys all_targets).

(** [target.options.interactive ?? true] *)
Definition is_interactive (target : TargetType Heap Val) : bool :=
  default true (interactive (options target)).

Definition interactive_targets (all_targets : Registry Heap Val)
  : list (TargetType Heap Val) :=
  filter (λ target, is_interactive target = true)
         (all_targets_values all_targets).

(** One entry of the [choices] of the multiselect prompt. *)
Record Choice : Type := {
  choice_title : string;
  choice_value : string;
  choice_selected : bool
}.

Definition choices (all_targets : Registry Heap Val) : list Choice :=
  (λ target, {| choice_title := name target; choice_value := name target;
                choice_selected := true |})
  <$> interactive_targets all_targets.

(** What [execute] takes from outside the program: the parsed command line,
    the answer of [fs.existsSync(project_file)], what
    [require(path.join(process.cwd(), project_file))] gives (an exception or
    the makefile function, which is run on the process state and settles),
    and the [selected_targets] property of what the prompt resolves to
    ([None] when the answer has no such property).  Assumed: parsing the
    command line and [Pino.pino] return, the prompt settles with an object,
    and a module whose loading throws has registered nothing. *)
Record Invocation : Type := {
  project_file : string;
  args : list string;
  existsSync : bool;
  makefile_module : Thrown Val + (State Heap Val → Settlement Val * State Heap Val);
  prompts : list Choice → option (list string)
}.

(** Where the failure message is written. *)
Inductive Report : Type :=
| console_log (message : string)
| logger_error (message : string).

(** How the process ends: the status given to [process.exit] and what was
    reported before. *)
Record Exit : Type := {
  exit_code : nat;
  report : option Report
}.

(** [`${error}`]: an [Error] object prints its name and, unless it is empty,
    its message. *)
Definition describe (error : Thrown Val) : string :=
  match error with
  | Error "" => "Error"
  | Error message => "Error: " +:+ message
  | TypeError "" => "TypeError"
  | TypeError message => "TypeError: " +:+ message
  | Raised v => to_string v
  end.

(** The [catch] handler of [execute()]: the message goes to the logger when
    there is one, to the console otherwise. *)
Definition failure (logger : bool) (error : Thrown Val) : Exit :=
  let message := "make failed: " +:+ describe error in
  {| exit_code := 1;
     report := Some (if logger then logger_error message
                     else console_log message) |}.

(** The [then] handler of [execute()]. *)
Definition success : Exit := {| exit_code := 0; report := None |}.

(** [targets] as [execute] passes it to [evaluate]. *)
Definition chosen_targets (inv : Invocation) (all_targets : Registry Heap Val)
  : option (list string) :=
  if decide (length (args inv) = 0) then prompts inv (choices all_targets)
  else Some (args inv).

(** [execute()] with its two handlers: the exit, the state of the process
    when it exits and the links that ran.  The logger exists from the moment
    the makefile has been loaded. *)
Definition execute (inv : Invocation) (st : State Heap Val)
  : option (Exit * State Heap Val * list (Event Heap Val)) :=
  if existsSync inv then
    match makefile_module inv with
    | inl error => Some (failure false error, st, [])
    | inr run_makefile =>
        match run_makefile st with
        | (Fulfils, st1) =>
            match evaluate path_resolve
                    (chosen_targets inv (all_targets st1)) st1 with
            | Some (Accepted _, st2, evs) => Some (success, st2, evs)
            | Some (Rejected error, st2, evs) =>
                Some (failure true error, st2, evs)
            | None => None
            end
        | (Throws error, st1) => Some (failure true error, st1, [])
        | (Rejects error, st1) => Some (failure true error, st1, [])
        end
    end
  else
    Some (failure false (Error (project_file inv +:+ " does not exist")),
          st, []).

End Cli.

Arguments Choice : clear implicits.
Arguments Invocation : clear implicits.
Arguments Report : clear implicits.
Arguments Exit : clear implicits.

(** ** A makefile and some command lines used in the examples *)
Module CliDemo.

Definition declare (n : string) (deps : list string)
    (opts : option TargetOptionsType) : TargetArgs unit string :=
  {| arg_name := n; arg_depends := Some deps; arg_options := opts;
     arg_action := None |}.

(** A target that the prompt does not offer. *)
Definition unlisted : TargetOptionsType :=
  {| target_path := None; interactive := Some false |}.
Definition tools : TargetType unit string :=
  {| name := "tools"; depends := []; action := noop; options := unlisted |}.
Definition site : TargetType unit string :=
  {| name := "site"; depends := []; action := noop; options := unlisted |}.

(** The makefile: [A], [B] and [C] of the chain, with [C] needing [tools]
    as well, and [site], which nothing needs. *)
Definition C_tools : TargetType unit string :=
  Demo.mk "C" ["A"; "B"; "tools"].
Definition declarations : list (TargetArgs unit string) :=
  [declare "A" [] None; declare "B" ["A"] None;
   declare "C" ["A"; "B"; "tools"] None;
   declare "tools" [] (Some unlisted); declare "site" [] (Some unlisted)].
Definition makefile (st : State unit string)
  : Settlement string * State unit string :=
  (Fulfils, {| all_targets := register_all declarations (all_targets st);
               process := process st |}).
Definition built : Registry unit string :=
  [Demo.A; Demo.B; C_tools; tools; site].

(** A makefile with a target that lists a name nobody registers. *)
Definition broken_makefile (st : State unit string)
  : Settlement string * State unit string :=
  (Fulfils, {| all_targets :=
                 register_all [declare "A" [] None;
                               declare "D" ["A"; "missing"] None]
                              (all_targets st);
               process := process st |}).

Definition command (names : list string)
    (answer : list Choice → option (list string))
    (module : State unit string → Settlement string * State unit string)
  : Invocation unit string :=
  {| project_file := "makefile.js"; args := names; existsSync := true;
     makefile_module := inr module; prompts := answer |}.

(** The prompt answered by deselecting everything, and by accepting what is
    preselected. *)
Definition nothing (cs : list Choice) : option (list string) := Some [].
Definition preselected (cs : list Choice) : option (list string) :=
  Some (choice_value <$> cs).

Definition fresh : State unit string := Demo.state [].

(** Thrown values are strings here and print as themselves. *)
Definition show (v : string) : string := v.

(** The link of [Demo.rejecting], run in [/w]. *)
Definition rejected_in_sub : Event unit string :=
  {| ev_target := Demo.rejecting; ev_before := "/w"; ev_during := "/w/sub";
     ev_settlement := Rejects (Error "boom"); ev_after := "/w" |}.

(** A ranking of the names of [Demo.registry] that decreases along
    [depends]. *)
Definition rank (n : string) : nat :=
  if decide (n = "C") then 2 else if decide (n = "B") then 1 else 0.

End CliDemo.

(** ** The registry as a map *)

Section Registry.
Context {Heap Val : Type}.
Implicit Types (reg : Registry Heap Val) (t rtn : TargetType Heap Val).
Implicit Types (key : string).

Lemma get_name reg key t : get reg key = Some t → name t = key.
Proof.
  induction reg as [|t' rest IH]; simpl; [done|].
  case_decide; [congruence | auto].
Qed.

Lemma get_elem_of reg key t : get reg key = Some t → t ∈ reg.
Proof.
  induction reg as [|t' rest IH]; simpl; [done|].
  case_decide.
  - intros [= ->]. left.
  - right. auto.
Qed.

Lemma get_is_Some reg key : is_Some (get reg key) ↔ key ∈ name <$> reg.
Proof.
  induction reg as [|t' rest IH]; simpl.
  - split; [by intros [? ?] | by intros ?%elem_of_nil].
  - rewrite elem_of_cons. case_decide as Hn.
    + split; [by left | eauto].
    + rewrite IH. split; [by right | by intros [?|?]].
Qed.

Lemma get_None reg key : get reg key = None ↔ key ∉ name <$> reg.
Proof. rewrite <-get_is_Some, eq_None_not_Some. done. Qed.

Lemma get_set_property_eq rtn reg :
  get (set_property rtn reg) (name rtn) = Some rtn.
Proof.
  induction reg as [|t' rest IH]; simpl.
  - by rewrite decide_True.
  - case_decide; simpl.
    + by rewrite decide_True.
    + by rewrite decide_False.
Qed.

Lemma get_set_property_ne rtn reg key :
  key ≠ name rtn → get (set_property rtn reg) key = get reg key.
Proof.
  intros Hne. induction reg as [|t' rest IH]; simpl.
  - by rewrite decide_False.
  - case_decide as Hn; simpl.
    + rewrite !decide_False; [done | congruence | congruence].
    + case_decide; [done | apply IH].
Qed.

Lemma names_set_property_old rtn reg :
  name rtn ∈ name <$> reg →
  name <$> set_property rtn reg = name <$> reg.
Proof.
  induction reg as [|t' rest IH]; csimpl.
  - by intros ?%elem_of_nil.
  - case_decide as Hn; csimpl.
    + by rewrite Hn.
    + rewrite elem_of_cons. intros [?|?]; [congruence|]. by rewrite IH.
Qed.

Lemma names_set_property_new rtn reg :
  name rtn ∉ name <$> reg →
  name <$> set_property rtn reg = (name <$> reg) ++ [name rtn].
Proof.
  induction reg as [|t' rest IH]; csimpl; [done|].
  rewrite not_elem_of_cons. intros [Hne Hnot].
  rewrite decide_False by congruence. csimpl. by rewrite IH.
Qed.

(** The keys that [Object.keys] lists are the names of the stored records. *)
Lemma Object_keys_Permutation reg : Object_keys reg ≡ₚ name <$> reg.
Proof.
  unfold Object_keys. rewrite merge_sort_Permutation.
  induction (name <$> reg) as [|k ks IH]; simpl; [done|].
  rewrite filter_cons. destruct (array_index k) as [i|] eqn:Hi; simpl.
  - apply perm_skip, IH.
  - rewrite <-Permutation_middle. apply perm_skip, IH.
Qed.

Lemma elem_of_Object_keys reg key :
  key ∈ Object_keys reg ↔ is_Some (get reg key).
Proof. by rewrite Object_keys_Permutation, get_is_Some. Qed.

Lemma elem_of_selected reg target_names key :
  key ∈ selected reg target_names ↔
  is_Some (get reg key) ∧ (target_names = [] ∨ key ∈ target_names).
Proof.
  unfold selected. rewrite list_elem_of_filter, elem_of_Object_keys.
  rewrite length_zero_iff_nil. tauto.
Qed.

End Registry.

(** ** The resolver *)

Section Resolver.
Context {Heap Val : Type}.
Variable reg : Registry Heap Val.
Implicit Types (t : TargetType Heap Val) (rtn : list (TargetType Heap Val)).
Implicit Types (picked : gset string) (n d x : string).

Lemma visited_nil P picked : visited reg P picked [] picked.
Proof.
  split; try (intros; by (try apply NoDup_nil_2));
    try by intros ? ?%elem_of_nil.
  - intros x. rewrite fmap_nil, elem_of_nil. tauto.
  - by intros ? ? ?%elem_of_nil.
Qed.

Lemma visited_weaken (P Q : string → Prop) picked rtn picked' :
  (∀ x, P x → Q x) → visited reg P picked rtn picked' → visited reg Q picked rtn picked'.
Proof. intros HPQ [? ? ? ? ? ? ?]. split; auto. Qed.

Lemma visited_app P picked r1 p1 r2 p2 :
  visited reg P picked r1 p1 → visited reg P p1 r2 p2 → visited reg P picked (r1 ++ r2) p2.
Proof.
  intros [Hp1 Hnd1 Hf1 Hg1 Hfr1 Hc1 Ho1] [Hp2 Hnd2 Hf2 Hg2 Hfr2 Hc2 Ho2].
  split.
  - intros x. rewrite fmap_app, elem_of_app, Hp2, Hp1. tauto.
  - rewrite fmap_app. apply list.NoDup_app. split_and!; [done| |done].
    intros x Hx1 Hx2. apply (Hf2 x Hx2). apply Hp1. by right.
  - intros x. rewrite fmap_app, elem_of_app. intros [Hx|Hx]; [by apply Hf1|].
    intros Hin. apply (Hf2 x Hx). apply Hp1. by left.
  - intros t. rewrite elem_of_app. intros [?|?]; auto.
  - intros t. rewrite elem_of_app. intros [?|?]; auto.
  - intros t d. rewrite elem_of_app. intros [Ht|Ht] Hd; [|by eauto].
    apply Hp2. left. eauto.
  - intros j t d Hj Hd. apply lookup_app_Some in Hj as [Hj|[Hlen Hj]].
    + destruct (Ho1 j t d Hj Hd) as [?|[(i & t' & ? & Hi & ?)|?]]; auto.
      right; left. exists i, t'. split_and!; [done| |done].
      by apply lookup_app_l_Some.
    + destruct (Ho2 _ t d Hj Hd) as [Hin|[(i & t' & ? & Hi & ?)|?]]; auto.
      * apply Hp1 in Hin as [?|Hin]; [by left|]. right; left.
        apply list_elem_of_fmap in Hin as (t' & -> & Ht').
        apply list_elem_of_lookup in Ht' as [i Hi].
        exists i, t'. split_and!; [|by apply lookup_app_l_Some|done].
        apply lookup_lt_Some in Hi. lia.
      * right; left. exists (length r1 + i), t'. split_and!; [lia| |done].
        rewrite lookup_app_r by lia. rewrite <-Hi. f_equal. lia.
Qed.

(** The array that [push_each] is given is only appended to. *)
Lemma push_each_acc visit ns rtn0 picked :
  push_each visit ns rtn0 picked =
  match push_each visit ns [] picked with
  | Return r picked' => Return (rtn0 ++ r) picked'
  | OutOfFuel => OutOfFuel
  | Throw e => Throw e
  end.
Proof.
  revert rtn0 picked. induction ns as [|n ns IH]; intros rtn0 picked; simpl.
  - by rewrite app_nil_r.
  - destruct (visit n picked) as [|e|r p1]; [done..|].
    rewrite (IH (rtn0 ++ r)), (IH ([] ++ r)).
    destruct (push_each visit ns [] p1); [done..|]. by rewrite app_assoc.
Qed.

Lemma push_each_cons_Return visit n ns picked rtn picked' :
  push_each visit (n :: ns) [] picked = Return rtn picked' →
  ∃ r1 p1 r2, visit n picked = Return r1 p1
    ∧ push_each visit ns [] p1 = Return r2 picked'
    ∧ rtn = r1 ++ r2.
Proof.
  simpl. destruct (visit n picked) as [|e|r1 p1]; [done..|].
  rewrite push_each_acc.
  destruct (push_each visit ns [] p1) as [|e|r2 p2] eqn:Hrest; [done..|].
  intros [= <- <-]. by exists r1, p1, r2.
Qed.

Lemma push_each_visited visit ns :
  (∀ n picked r picked', n ∈ ns → visit n picked = Return r picked' →
     visited reg (reaches reg n) picked r picked' ∧ n ∈ picked') →
  ∀ picked rtn picked',
    push_each visit ns [] picked = Return rtn picked' →
    visited reg (λ x, ∃ n, n ∈ ns ∧ reaches reg n x) picked rtn picked'
    ∧ ∀ n, n ∈ ns → n ∈ picked'.
Proof.
  induction ns as [|n ns IH]; intros Hvisit picked rtn picked'.
  - intros [= <- <-]. split; [apply visited_nil | by intros ? ?%elem_of_nil].
  - intros (r1 & p1 & r2 & Hn & Hns & ->)%push_each_cons_Return.
    destruct (Hvisit n picked r1 p1) as [Hv1 Hin1]; [left|done|].
    destruct (IH (λ m q r q' Hm, Hvisit m q r q' (list_elem_of_further _ _ _ Hm))
                 p1 r2 picked' Hns) as [Hv2 Hin2].
    split.
    + eapply visited_app.
      * eapply visited_weaken; [|exact Hv1].
        intros x ?. exists n. split; [left|done].
      * eapply visited_weaken; [|exact Hv2].
        intros x (m & ? & ?). exists m. split; [by right|done].
    + intros m [->|?]%elem_of_cons; [|by auto].
      apply (v_picked _ _ _ _ _ Hv2). by left.
Qed.

Lemma pick_visited fuel n picked rtn picked' :
  pick_target_and_dependencies fuel reg n picked = Return rtn picked' →
  visited reg (reaches reg n) picked rtn picked' ∧ n ∈ picked'.
Proof.
  revert n picked rtn picked'.
  induction fuel as [|fuel IH]; intros n picked rtn picked'; simpl; [done|].
  unfold property. destruct (get reg n) as [t|] eqn:Hget.
  2:{ destruct (inherited_member n); [|done]. case_decide; [|done].
      intros [= <- <-]. split; [apply visited_nil | done]. }
  pose proof (get_name _ _ _ Hget) as Hname.
  case_decide as Hpicked.
  { intros [= <- <-]. split; [apply visited_nil | done]. }
  destruct (push_each _ (depends t) [] _) as [|e|r p'] eqn:Hdeps; [done..|].
  intros [= <- <-].
  apply push_each_visited in Hdeps as [[Hp Hnd Hf Hg Hfr Hc Ho] Hin];
    [|by intros; eapply IH].
  assert (Hn_r : n ∉ name <$> r).
  { intros Hx. apply (Hf n Hx). set_solver. }
  split; [split|].
  - intros x. rewrite fmap_app, elem_of_app, Hp. csimpl.
    rewrite list_elem_of_singleton, Hname. set_solver.
  - rewrite fmap_app. csimpl. rewrite Hname. apply list.NoDup_app.
    split_and!; [done| |apply NoDup_singleton].
    intros x Hx ->%list_elem_of_singleton. done.
  - intros x. rewrite fmap_app, elem_of_app. csimpl.
    rewrite list_elem_of_singleton, Hname. intros [Hx| ->]; [|done].
    specialize (Hf x Hx). set_solver.
  - intros t'. rewrite elem_of_app, list_elem_of_singleton.
    intros [?| ->]; [by auto|]. by rewrite Hname.
  - intros t'. rewrite elem_of_app, list_elem_of_singleton.
    intros [Ht'| ->]; [|rewrite Hname; apply rtc_refl].
    destruct (Hfr t' Ht') as (d & Hd & Hreach).
    eapply rtc_l; [|exact Hreach]. by exists t.
  - intros t' d. rewrite elem_of_app, list_elem_of_singleton.
    intros [?| ->] Hd; [by eauto | by auto].
  - intros j t' d Hj Hd. apply lookup_app_Some in Hj as [Hj|[Hlen Hj]].
    + assert (reaches reg n (name t')) as Hnt'.
      { destruct (Hfr t') as (d' & Hd' & Hreach);
          [by eapply list_elem_of_lookup_2|].
        eapply rtc_l; [|exact Hreach]. by exists t. }
      destruct (Ho j t' d Hj Hd) as [Hin'|[(i & t'' & ? & Hi & ?)|?]]; auto.
      * apply elem_of_union in Hin' as [->%elem_of_singleton|?]; auto.
      * right; left. exists i, t''. split_and!; [done| |done].
        by apply lookup_app_l_Some.
    + apply list_lookup_singleton_Some in Hj as [Hj0 ->].
      specialize (Hin d Hd). apply Hp in Hin as [Hin|Hin].
      * apply elem_of_union in Hin as [->%elem_of_singleton|?]; auto.
        right; right. rewrite Hname. apply rtc_refl.
      * right; left. apply list_elem_of_fmap in Hin as (t'' & -> & Ht'').
        apply list_elem_of_lookup in Ht'' as [i Hi].
        exists i, t''. split_and!; [|by apply lookup_app_l_Some|done].
        apply lookup_lt_Some in Hi. lia.
  - apply Hp. set_solver.
Qed.

(** *** The recursion ends

    Every recursive call is made with one more registered name in [picked];
    the number of registered names outside [picked] bounds the depth. *)

Lemma unpicked_mono picked picked' :
  picked ⊆ picked' → unpicked reg picked' ≤ unpicked reg picked.
Proof. intros Hsub. unfold unpicked. apply subseteq_size. set_solver. Qed.

Lemma unpicked_add n picked :
  is_Some (get reg n) → n ∉ picked →
  unpicked reg ({[n]} ∪ picked) < unpicked reg picked.
Proof.
  intros Hreg%get_is_Some Hn. unfold unpicked. apply subset_size.
  apply strict_spec_alt. split; [set_solver|].
  intros Heq. assert (n ∈ list_to_set (name <$> reg) ∖ picked) as Hin.
  { apply elem_of_difference. split; [by apply elem_of_list_to_set|done]. }
  rewrite <-Heq in Hin. set_solver.
Qed.

Lemma size_list_to_set_le (l : list string) :
  size (list_to_set l : gset string) ≤ length l.
Proof.
  induction l as [|x l IH].
  - rewrite list_to_set_nil, size_empty. simpl. lia.
  - rewrite list_to_set_cons, size_union_alt, size_singleton. simpl.
    assert (size (list_to_set l ∖ {[x]} : gset string)
            ≤ size (list_to_set l : gset string)).
    { apply subseteq_size. set_solver. }
    lia.
Qed.

Lemma unpicked_bound picked : unpicked reg picked < S (length reg).
Proof.
  unfold unpicked.
  assert (size (list_to_set (name <$> reg) ∖ picked : gset string)
          ≤ size (list_to_set (name <$> reg) : gset string)).
  { apply subseteq_size. set_solver. }
  pose proof (size_list_to_set_le (name <$> reg)) as Hle.
  rewrite length_fmap in Hle. lia.
Qed.

Lemma push_each_fuel visit ns bound :
  (∀ n picked, unpicked reg picked < bound → visit n picked ≠ OutOfFuel) →
  (∀ n picked r picked', visit n picked = Return r picked' →
     picked ⊆ picked') →
  ∀ rtn picked, unpicked reg picked < bound →
    push_each visit ns rtn picked ≠ OutOfFuel.
Proof.
  intros Hfuel Hgrow. induction ns as [|n ns IH]; intros rtn picked Hlt; simpl.
  - done.
  - destruct (visit n picked) as [|e|r p1] eqn:Hn; [|done|].
    + by apply Hfuel in Hn.
    + apply IH. pose proof (unpicked_mono _ _ (Hgrow _ _ _ _ Hn)). lia.
Qed.

Lemma pick_grows fuel n picked rtn picked' :
  pick_target_and_dependencies fuel reg n picked = Return rtn picked' →
  picked ⊆ picked'.
Proof.
  intros [Hv _]%pick_visited x Hx. apply (v_picked _ _ _ _ _ Hv). by left.
Qed.

Lemma pick_fuel fuel n picked :
  unpicked reg picked < fuel →
  pick_target_and_dependencies fuel reg n picked ≠ OutOfFuel.
Proof.
  revert n picked. induction fuel as [|fuel IH]; intros n picked Hlt; [lia|].
  simpl. unfold property. destruct (get reg n) as [t|] eqn:Hget;
    [|by destruct (inherited_member n); try case_decide].
  case_decide as Hpicked; [done|].
  pose proof (unpicked_add n picked (mk_is_Some _ _ Hget) Hpicked) as Hadd.
  pose proof (push_each_fuel (pick_target_and_dependencies fuel reg)
    (depends t) fuel IH (pick_grows fuel) [] ({[n]} ∪ picked)) as Hdeps.
  destruct (push_each _ (depends t) [] _); [|done..].
  apply Hdeps. lia.
Qed.

(** *** What the resolver throws *)

Lemma push_each_Throw visit ns rtn picked e :
  push_each visit ns rtn picked = Throw e →
  ∃ n picked', n ∈ ns ∧ visit n picked' = Throw e.
Proof.
  revert rtn picked. induction ns as [|n ns IH]; intros rtn picked; simpl.
  - done.
  - destruct (visit n picked) as [|e'|r p1] eqn:Hn; [done| |].
    + intros [= ->]. exists n, picked. split; [left|done].
    + intros (m & p' & ? & ?)%IH. exists m, p'. split; [by right|done].
Qed.

Lemma pick_Throw fuel n picked e :
  pick_target_and_dependencies fuel reg n picked = Throw e →
  ∃ x, get reg x = None ∧ reaches reg n x
    ∧ e = if inherited_member x then no_depends else dont_know x.
Proof.
  revert n picked. induction fuel as [|fuel IH]; intros n picked; simpl; [done|].
  unfold property. destruct (get reg n) as [t|] eqn:Hget.
  - case_decide; [done|].
    destruct (push_each _ (depends t) [] _) as [|e'|r p'] eqn:Hdeps; [done| |done].
    intros [= ->]. apply push_each_Throw in Hdeps as (d & p1 & Hd & Hthrow).
    apply IH in Hthrow as (x & Hx & Hreach & ->).
    exists x. split_and!; [done| |done]. eapply rtc_l; [|exact Hreach]. by exists t.
  - destruct (inherited_member n) eqn:Hinh.
    + case_decide; [done|]. intros [= <-]. exists n.
      rewrite Hinh. split_and!; [done|apply rtc_refl|done].
    + intros [= <-]. exists n. rewrite Hinh.
      split_and!; [done|apply rtc_refl|done].
Qed.

(** *** The array [required] *)

Lemma resolve_total target_names : resolve reg target_names ≠ OutOfFuel.
Proof.
  unfold resolve. eapply push_each_fuel.
  - intros n picked _. apply pick_fuel, unpicked_bound.
  - apply pick_grows.
  - apply unpicked_bound.
Qed.

Lemma resolve_Return target_names required picked :
  resolve reg target_names = Return required picked →
  visited reg (from_roots reg (selected reg target_names)) ∅ required picked
  ∧ ∀ n, n ∈ selected reg target_names → n ∈ picked.
Proof.
  unfold resolve. intros Hres. eapply push_each_visited; [|exact Hres].
  intros n p r p' _. apply pick_visited.
Qed.

Lemma resolve_Throw target_names e :
  resolve reg target_names = Throw e →
  ∃ root t x, root ∈ selected reg target_names
    ∧ reaches reg root (name t) ∧ get reg (name t) = Some t
    ∧ x ∈ depends t ∧ get reg x = None
    ∧ e = if inherited_member x then no_depends else dont_know x.
Proof.
  unfold resolve. intros (root & p & Hroot & Hthrow)%push_each_Throw.
  apply pick_Throw in Hthrow as (x & Hx & Hreach & ->).
  apply rtc_inv_r in Hreach as [->|(y & Hy & t & Hget & Hdep)].
  - apply elem_of_selected in Hroot as [[t Ht] _]. congruence.
  - exists root, t, x. rewrite (get_name _ _ _ Hget). done.
Qed.

Lemma resolve_names target_names required picked :
  resolve reg target_names = Return required picked →
  ∀ x, x ∈ picked ↔ ∃ t, t ∈ required ∧ name t = x.
Proof.
  intros [Hv _]%resolve_Return x. rewrite (v_picked _ _ _ _ _ Hv).
  rewrite list_elem_of_fmap. set_solver.
Qed.

(** A returning resolver has picked everything the roots depend on. *)
Lemma resolve_closed target_names required picked :
  resolve reg target_names = Return required picked →
  ∀ x, from_roots reg (selected reg target_names) x → x ∈ picked.
Proof.
  intros Hres x (root & Hroot & Hreach).
  destruct (resolve_Return _ _ _ Hres) as [Hv Hroots].
  revert x Hreach. apply rtc_ind_r; [by apply Hroots|].
  intros y z _ (t & Hget & Hdep) IH.
  apply (resolve_names _ _ _ Hres) in IH as (t' & Ht' & Hname).
  pose proof (v_get _ _ _ _ _ Hv t' Ht') as Hget'.
  rewrite Hname, Hget in Hget'. injection Hget' as ->.
  by apply (v_closed _ _ _ _ _ Hv t' z).
Qed.

Lemma elem_of_required target_names required picked :
  resolve reg target_names = Return required picked →
  ∀ t, t ∈ required ↔
    get reg (name t) = Some t ∧ from_roots reg (selected reg target_names) (name t).
Proof.
  intros Hres t. destruct (resolve_Return _ _ _ Hres) as [Hv _]. split.
  - intros Ht. split; [by apply (v_get _ _ _ _ _ Hv) | by apply (v_from _ _ _ _ _ Hv)].
  - intros [Hget Hfrom].
    apply (resolve_closed _ _ _ Hres), (resolve_names _ _ _ Hres) in Hfrom
      as (t' & Ht' & Hname).
    pose proof (v_get _ _ _ _ _ Hv t' Ht') as Hget'.
    rewrite Hname, Hget in Hget'. by injection Hget' as ->.
Qed.

Lemma required_NoDup target_names required picked :
  resolve reg target_names = Return required picked →
  NoDup (name <$> required) ∧ NoDup required.
Proof.
  intros [Hv _]%resolve_Return. pose proof (v_nodup _ _ _ _ _ Hv) as Hnd.
  split; [done|]. by eapply NoDup_fmap_1.
Qed.

Lemma required_order target_names required picked :
  resolve reg target_names = Return required picked →
  dependencies_first_unless_cyclic reg required.
Proof.
  intros [Hv _]%resolve_Return j T D Hj HD Hacyclic.
  destruct (v_order _ _ _ _ _ Hv j T D Hj HD)
    as [Hin|[(i & dep & Hlt & Hi & Hname)|Hcyc]]; [set_solver| |done].
  exists i, dep. split_and!; [done| |done].
  rewrite <-Hname. apply (v_get _ _ _ _ _ Hv). by eapply list_elem_of_lookup_2.
Qed.

(** A reachable target that lists an unregistered name makes the resolver
    throw. *)
Lemma resolve_unknown_dependency target_names root t d :
  root ∈ selected reg target_names → reaches reg root (name t) →
  get reg (name t) = Some t → d ∈ depends t → get reg d = None →
  ∃ e, resolve reg target_names = Throw e.
Proof.
  intros Hroot Hreach Hget Hd Hnone.
  destruct (resolve reg target_names) as [|e|required picked] eqn:Hres.
  - by apply resolve_total in Hres.
  - by exists e.
  - exfalso. assert (from_roots reg (selected reg target_names) d) as Hfrom.
    { exists root. split; [done|]. eapply rtc_r; [exact Hreach|]. by exists t. }
    apply (resolve_closed _ _ _ Hres), (resolve_names _ _ _ Hres) in Hfrom
      as (t' & Ht' & Hname).
    destruct (resolve_Return _ _ _ Hres) as [Hv _].
    pose proof (v_get _ _ _ _ _ Hv t' Ht') as Hget'. congruence.
Qed.

(** *** One root after the other *)

Lemma push_each_app visit ns1 ns2 rtn picked :
  push_each visit (ns1 ++ ns2) rtn picked =
  match push_each visit ns1 rtn picked with
  | Return r picked' => push_each visit ns2 r picked'
  | OutOfFuel => OutOfFuel
  | Throw e => Throw e
  end.
Proof.
  revert rtn picked. induction ns1 as [|n ns1 IH]; intros rtn picked; simpl.
  - done.
  - destruct (visit n picked) as [|e|r p1]; [done..|]. apply IH.
Qed.

Lemma roots_visited fuel roots picked rtn picked' :
  push_each (pick_target_and_dependencies fuel reg) roots [] picked
    = Return rtn picked' →
  visited reg (from_roots reg roots) picked rtn picked'
  ∧ ∀ n, n ∈ roots → n ∈ picked'.
Proof.
  intros Hres. eapply push_each_visited; [|exact Hres].
  intros n p r p' _. apply pick_visited.
Qed.

Lemma closed_empty : closed reg ∅.
Proof. intros x t d Hx. set_solver. Qed.

Lemma visited_closed P picked rtn picked' :
  closed reg picked → visited reg P picked rtn picked' → closed reg picked'.
Proof.
  intros Hclosed Hv x t d Hx Hget Hd.
  apply (v_picked _ _ _ _ _ Hv) in Hx as [Hx|Hx].
  - apply (v_picked _ _ _ _ _ Hv). left. by eapply Hclosed.
  - apply list_elem_of_fmap in Hx as (t' & -> & Ht').
    pose proof (v_get _ _ _ _ _ Hv t' Ht') as Hget'.
    rewrite Hget in Hget'. injection Hget' as ->.
    by apply (v_closed _ _ _ _ _ Hv t' d).
Qed.

Lemma closed_reaches picked n x :
  closed reg picked → n ∈ picked → reaches reg n x → x ∈ picked.
Proof.
  intros Hclosed Hn. revert x. apply rtc_ind_r; [done|].
  intros y z _ (t & Hget & Hd) Hy. by eapply Hclosed.
Qed.

(** What a returning traversal of [roots], started with nothing picked,
    returns: the registered targets that the roots lead to. *)
Lemma elem_of_roots fuel roots rtn picked' :
  push_each (pick_target_and_dependencies fuel reg) roots [] ∅
    = Return rtn picked' →
  (∀ x, x ∈ picked' ↔ x ∈ name <$> rtn)
  ∧ closed reg picked'
  ∧ ∀ t, t ∈ rtn ↔ get reg (name t) = Some t ∧ from_roots reg roots (name t).
Proof.
  intros [Hv Hroots]%roots_visited.
  assert (∀ x, x ∈ picked' ↔ x ∈ name <$> rtn) as Hnames.
  { intros x. rewrite (v_picked _ _ _ _ _ Hv). set_solver. }
  pose proof (visited_closed _ _ _ _ closed_empty Hv) as Hclosed.
  split_and!; [done..|]. intros t. split.
  - intros Ht. split; [by apply (v_get _ _ _ _ _ Hv)|by apply (v_from _ _ _ _ _ Hv)].
  - intros [Hget (n & Hn & Hreach)].
    assert (name t ∈ picked') as Hin
      by (eapply closed_reaches; [done|by apply Hroots|done]).
    apply Hnames, list_elem_of_fmap in Hin as (t' & Hname & Ht').
    pose proof (v_get _ _ _ _ _ Hv t' Ht') as Hget'.
    rewrite <-Hname, Hget in Hget'. by injection Hget' as ->.
Qed.

Lemma pick_last fuel n picked rtn picked' t :
  pick_target_and_dependencies fuel reg n picked = Return rtn picked' →
  n ∉ picked → get reg n = Some t → list.last rtn = Some t.
Proof.
  destruct fuel as [|fuel]; simpl; [done|]. intros Hpick Hn Hget.
  unfold property in Hpick. rewrite Hget, decide_False in Hpick by done.
  destruct (push_each _ (depends t) [] _) as [|e|r p']; [done..|].
  injection Hpick as <- <-. apply last_snoc.
Qed.

(** The array [required] root by root: the part that the visit of a root
    [r] contributes stands after the targets that the roots before [r] lead
    to, and holds the registered targets that [r] leads to and that no root
    before it leads to, the record of [r] last. *)
Lemma resolve_segments target_names roots1 r roots2 required picked :
  selected reg target_names = roots1 ++ r :: roots2 →
  resolve reg target_names = Return required picked →
  ∃ before segment after,
    required = before ++ segment ++ after
    ∧ (∀ t, t ∈ before ↔
         get reg (name t) = Some t ∧ from_roots reg roots1 (name t))
    ∧ (∀ t, t ∈ segment ↔
         get reg (name t) = Some t ∧ reaches reg r (name t)
         ∧ ¬ from_roots reg roots1 (name t))
    ∧ (∀ t, get reg r = Some t → ¬ from_roots reg roots1 r →
         list.last segment = Some t).
Proof.
  unfold resolve. intros -> Hres.
  rewrite push_each_app in Hres.
  destruct (push_each _ roots1 [] ∅) as [|e|before p1] eqn:H1; [done..|].
  rewrite push_each_acc in Hres.
  destruct (push_each _ (r :: roots2) [] p1) as [|e|rest p2] eqn:H2; [done..|].
  injection Hres as <- <-.
  apply push_each_cons_Return in H2 as (segment & p2' & after & Hr & _ & ->).
  destruct (elem_of_roots _ _ _ _ H1) as (Hnames1 & Hclosed1 & Hbefore).
  destruct (pick_visited _ _ _ _ _ Hr) as [Hv Hin].
  pose proof (visited_closed _ _ _ _ Hclosed1 Hv) as Hclosed2.
  assert (∀ t, get reg (name t) = Some t →
               name t ∈ p1 ↔ from_roots reg roots1 (name t)) as Hp1.
  { intros t Hget. rewrite Hnames1. split.
    - intros (t' & Hname & Ht')%list_elem_of_fmap.
      rewrite Hname. by apply Hbefore.
    - intros Hfrom. apply list_elem_of_fmap. exists t. split; [done|].
      by apply Hbefore. }
  exists before, segment, after. split_and!; [done|done| |].
  - intros t. split.
    + intros Ht. pose proof (v_get _ _ _ _ _ Hv t Ht) as Hget.
      split_and!; [done|by apply (v_from _ _ _ _ _ Hv)|].
      rewrite <-(Hp1 t Hget). apply (v_fresh _ _ _ _ _ Hv).
      by apply list_elem_of_fmap_2.
    + intros (Hget & Hreach & Hnot).
      assert (name t ∈ p2') as Hin2 by (by eapply closed_reaches).
      apply (v_picked _ _ _ _ _ Hv) in Hin2 as [Hin2|Hin2].
      { by apply (Hp1 t Hget) in Hin2. }
      apply list_elem_of_fmap in Hin2 as (t' & Hname & Ht').
      pose proof (v_get _ _ _ _ _ Hv t' Ht') as Hget'.
      rewrite <-Hname, Hget in Hget'. by injection Hget' as ->.
  - intros t Hget Hnot. eapply pick_last; [exact Hr| |done].
    pose proof (get_name _ _ _ Hget) as Hname. subst r.
    by rewrite (Hp1 t Hget).
Qed.

End Resolver.

(** ** The executor *)

Section Executor.
Context {Heap Val : Type}.
Variable path_resolve : string → string → string.
Implicit Types (t : TargetType Heap Val) (required : list (TargetType Heap Val)).
Implicit Types (w : World Heap) (ev : Event Heap Val) (e : Thrown Val).
Implicit Types (st : State Heap Val).

Lemma run_target_event t w ev w' :
  run_target path_resolve t w = (ev, w') →
  ev_target ev = t ∧ ev_before ev = cwd w
  ∧ ev_during ev = cwd (enter path_resolve t w)
  ∧ ev_settlement ev = (action t (enter path_resolve t w)).1
  ∧ ev_after ev = cwd w'.
Proof.
  unfold run_target. destruct (action t _) as [s w2]. by intros [= <- <-].
Qed.

Lemma enter_truthy t w :
  truthy (target_path (options t)) = true →
  ∃ p, target_path (options t) = Some p
    ∧ cwd (enter path_resolve t w) = path_resolve (cwd w) p.
Proof.
  unfold enter. destruct (target_path (options t)) as [p|]; [|done].
  intros ->. by exists p.
Qed.

(** One link: with a truthy [target_path] the action starts in that path
    resolved against the directory the link started in, and unless the
    action threw before returning the link ends in the directory it started
    in. *)
Lemma run_target_scoped t w ev w' :
  run_target path_resolve t w = (ev, w') →
  truthy (target_path (options t)) = true →
  (∃ p, target_path (options t) = Some p
     ∧ ev_during ev = path_resolve (ev_before ev) p)
  ∧ (¬ threw ev → ev_after ev = ev_before ev).
Proof.
  intros Hrun Htruthy. split.
  - destruct (run_target_event _ _ _ _ Hrun) as (_ & -> & -> & _).
    by apply enter_truthy.
  - revert Hrun. unfold run_target, leave. rewrite Htruthy.
    destruct (action t _) as [[|e|e] w2]; intros [= <- <-] Hthrew; simpl;
      [done| |done].
    destruct Hthrew. by exists e.
Qed.

(** The links that ran are the first targets of [required], in order. *)
Lemma task_chain_targets required results w o w' evs :
  task_chain path_resolve required results w = (o, w', evs) →
  ev_target <$> evs = take (length evs) required.
Proof.
  revert results w o w' evs.
  induction required as [|t rest IH]; intros results w o w' evs; simpl.
  - by intros [= <- <- <-].
  - destruct (run_target _ t w) as [ev w1] eqn:Hrun.
    destruct (run_target_event _ _ _ _ Hrun) as (Ht & _).
    destruct (ev_settlement ev).
    + destruct (task_chain _ rest _ w1) as [[o' w''] evs'] eqn:Hrest.
      intros [= <- <- <-]. csimpl. by rewrite Ht, (IH _ _ _ _ _ Hrest).
    + intros [= <- <- <-]. csimpl. by rewrite Ht, take_0.
    + intros [= <- <- <-]. csimpl. by rewrite Ht, take_0.
Qed.

(** A failed link is the last one, and its error is what the chain rejects
    with. *)
Lemma task_chain_failed required results w o w' evs k ev e :
  task_chain path_resolve required results w = (o, w', evs) →
  evs !! k = Some ev → failed ev e →
  o = Rejected e ∧ length evs = S k.
Proof.
  revert results w o w' evs k.
  induction required as [|t rest IH]; intros results w o w' evs k; simpl.
  - by intros [= <- <- <-].
  - destruct (run_target _ t w) as [ev1 w1] eqn:Hrun.
    destruct (ev_settlement ev1) as [|e1|e1] eqn:Hs.
    + destruct (task_chain _ rest _ w1) as [[o' w''] evs'] eqn:Hrest.
      intros [= <- <- <-]. destruct k as [|k]; simpl.
      * intros [= <-] [?|?]; congruence.
      * intros Hk Hfail. destruct (IH _ _ _ _ _ _ Hrest Hk Hfail) as [-> ->].
        done.
    + intros [= <- <- <-]. destruct k as [|k]; [|done].
      simpl. intros [= <-] [Hf|Hf]; rewrite Hs in Hf; [|done].
      injection Hf as ->. done.
    + intros [= <- <- <-]. destruct k as [|k]; [|done].
      simpl. intros [= <-] [Hf|Hf]; rewrite Hs in Hf; [done|].
      injection Hf as ->. done.
Qed.

(** An accepted chain ran every target of [required]. *)
Lemma task_chain_Accepted required results w r w' evs :
  task_chain path_resolve required results w = (Accepted r, w', evs) →
  ev_target <$> evs = required
  ∧ Forall (λ ev, ev_settlement ev = Fulfils) evs.
Proof.
  revert results w r w' evs.
  induction required as [|t rest IH]; intros results w r w' evs; simpl.
  - by intros [= <- <- <-].
  - destruct (run_target _ t w) as [ev1 w1] eqn:Hrun.
    destruct (run_target_event _ _ _ _ Hrun) as (Ht & _).
    destruct (ev_settlement ev1) as [|e1|e1] eqn:Hs; [|done..].
    destruct (task_chain _ rest _ w1) as [[o' w''] evs'] eqn:Hrest.
    intros [= -> <- <-]. destruct (IH _ _ _ _ _ Hrest) as [Htargets Hall].
    csimpl. rewrite Ht, Htargets. split; [done|]. by constructor.
Qed.

(** Every link that ran had a scoped working directory, unless its action
    threw before returning. *)
Lemma task_chain_scoped required results w o w' evs :
  task_chain path_resolve required results w = (o, w', evs) →
  ∀ ev, ev ∈ evs → truthy (target_path (options (ev_target ev))) = true →
    (∃ p, target_path (options (ev_target ev)) = Some p
       ∧ ev_during ev = path_resolve (ev_before ev) p)
    ∧ (¬ threw ev → ev_after ev = ev_before ev).
Proof.
  revert results w o w' evs.
  induction required as [|t rest IH]; intros results w o w' evs; simpl.
  - intros [= <- <- <-] ev ?%elem_of_nil. done.
  - destruct (run_target _ t w) as [ev1 w1] eqn:Hrun.
    destruct (run_target_event _ _ _ _ Hrun) as (Ht & _).
    pose proof (run_target_scoped _ _ _ _ Hrun) as Hscoped.
    rewrite <-Ht in Hscoped.
    destruct (ev_settlement ev1) as [|e1|e1] eqn:Hs.
    + destruct (task_chain _ rest _ w1) as [[o' w''] evs'] eqn:Hrest.
      intros [= <- <- <-] ev [->|Hin]%elem_of_cons; [done|].
      by eapply IH.
    + intros [= <- <- <-] ev ->%list_elem_of_singleton. done.
    + intros [= <- <- <-] ev ->%list_elem_of_singleton. done.
Qed.

(** The first link starts in the directory the chain starts in. *)
Lemma task_chain_first required results w o w' ev evs :
  task_chain path_resolve required results w = (o, w', ev :: evs) →
  ev_before ev = cwd w.
Proof.
  destruct required as [|t rest]; simpl; [done|].
  destruct (run_target _ t w) as [ev1 w1] eqn:Hrun.
  destruct (run_target_event _ _ _ _ Hrun) as (_ & Hbefore & _).
  destruct (ev_settlement ev1).
  - destruct (task_chain _ rest _ w1) as [[o' w''] evs'].
    by intros [= <- <- <- <-].
  - by intros [= <- <- <- <-].
  - by intros [= <- <- <- <-].
Qed.

(** A link starts only after the link before it was accepted, in the
    directory that link ended in. *)
Lemma task_chain_chained required results w o w' evs k ev ev' :
  task_chain path_resolve required results w = (o, w', evs) →
  evs !! k = Some ev → evs !! S k = Some ev' →
  ev_settlement ev = Fulfils ∧ ev_before ev' = ev_after ev.
Proof.
  revert results w o w' evs k.
  induction required as [|t rest IH]; intros results w o w' evs k; simpl.
  - by intros [= <- <- <-].
  - destruct (run_target _ t w) as [ev1 w1] eqn:Hrun.
    destruct (run_target_event _ _ _ _ Hrun) as (_ & _ & _ & _ & Hafter).
    destruct (ev_settlement ev1) as [|e1|e1] eqn:Hs.
    + destruct (task_chain _ rest _ w1) as [[o' w''] evs'] eqn:Hrest.
      intros [= <- <- <-]. destruct k as [|k]; simpl.
      * intros [= <-] Hnext. split; [done|].
        destruct evs' as [|ev2 evs']; [done|]. injection Hnext as ->.
        rewrite Hafter. by eapply task_chain_first.
      * by eapply IH.
    + by intros [= <- <- <-].
    + by intros [= <- <- <-].
Qed.

(** [evaluate] settles. *)
Lemma evaluate_total target_names st :
  is_Some (evaluate path_resolve target_names st).
Proof.
  unfold evaluate.
  destruct (resolve _ _) as [| |required picked] eqn:Hres; [|done|].
  - by apply resolve_total in Hres.
  - by destruct (task_chain _ required None (process st)) as [[o w] evs].
Qed.

Lemma evaluate_Throw target_names st e :
  resolve (all_targets st) (default [] target_names) = Throw e →
  evaluate path_resolve target_names st = Some (Rejected e, st, []).
Proof. unfold evaluate. by intros ->. Qed.

Lemma evaluate_Return target_names st required picked :
  resolve (all_targets st) (default [] target_names) = Return required picked →
  ∃ o w evs,
    task_chain path_resolve required None (process st) = (o, w, evs)
    ∧ evaluate path_resolve target_names st
      = Some (o, {| all_targets := all_targets st; process := w |}, evs).
Proof.
  unfold evaluate. intros ->.
  destruct (task_chain _ required None (process st)) as [[o w] evs].
  by exists o, w, evs.
Qed.

(** Whatever [evaluate] does, it is what the resolver and the chain did. *)
Lemma evaluate_inv target_names st o st' evs :
  evaluate path_resolve target_names st = Some (o, st', evs) →
  (∃ e, resolve (all_targets st) (default [] target_names) = Throw e
        ∧ o = Rejected e ∧ st' = st ∧ evs = [])
  ∨ (∃ required picked w,
        resolve (all_targets st) (default [] target_names)
          = Return required picked
        ∧ task_chain path_resolve required None (process st) = (o, w, evs)
        ∧ st' = {| all_targets := all_targets st; process := w |}).
Proof.
  unfold evaluate.
  destruct (resolve _ _) as [|e|required picked] eqn:Hres; [done| |].
  - intros [= <- <- <-]. left. by exists e.
  - destruct (task_chain _ required None (process st)) as [[o' w] evs'] eqn:Hc.
    intros [= <- <- <-]. right. by exists required, picked, w.
Qed.

End Executor.


(** ** Properties of the resolver *)

Section ResolverProperties.
Context {Heap Val : Type}.
Implicit Types (reg : Registry Heap Val) (st : State Heap Val).
Implicit Types (t T : TargetType Heap Val) (required : list (TargetType Heap Val)).

Lemma returned_Some (p : Picked Heap Val) required :
  returned p = Some required → ∃ picked, p = Return required picked.
Proof. destruct p as [| |r picked]; [done..|]. intros [= <-]. by exists picked. Qed.

(** In every array [required] that the resolver of [evaluate] returns, a
    target [T] stands after the target registered as [D] for every name [D]
    of [T.depends] that does not itself depend on [T], directly or
    transitively; that target is in the array. *)
Theorem dependency_order_unless_cyclic reg (target_names : list string) required :
  returned (resolve reg target_names) = Some required →
  ∀ j T D, required !! j = Some T → D ∈ depends T →
    ¬ reaches reg D (name T) →
    ∃ i dep, i < j ∧ get reg D = Some dep ∧ required !! i = Some dep.
Proof.
  intros [picked Hres]%returned_Some. by eapply required_order.
Qed.

(** C5.  In the array [required] no target occurs twice, a registered target
    that a root depends on occurs at exactly one index however many roots
    lead to it, and no target is the target of two links of the chain. *)
Theorem C5_at_most_once (path_resolve : string → string → string)
    (target_names : option (list string)) st required o st' evs :
  returned (resolve (all_targets st) (default [] target_names)) = Some required →
  evaluate path_resolve target_names st = Some (o, st', evs) →
  NoDup (name <$> required)
  ∧ (∀ t, get (all_targets st) (name t) = Some t →
       from_roots (all_targets st)
         (selected (all_targets st) (default [] target_names)) (name t) →
       ∃ i, required !! i = Some t ∧ ∀ i', required !! i' = Some t → i' = i)
  ∧ NoDup (name <$> (ev_target <$> evs)).
Proof.
  intros [picked Hres]%returned_Some Heval.
  destruct (required_NoDup _ _ _ _ Hres) as [Hnames Hnd].
  split_and!; [done| |].
  - intros t Hget Hfrom.
    assert (t ∈ required) as [i Hi]%list_elem_of_lookup
      by (by apply (elem_of_required _ _ _ _ Hres)).
    exists i. split; [done|]. intros i' Hi'. by eapply NoDup_lookup.
  - apply evaluate_inv in Heval as [(e & Hthrow & _)|(r & p & w & Hr & Hchain & _)];
      [congruence|].
    rewrite Hres in Hr. injection Hr as <- <-.
    rewrite (task_chain_targets _ _ _ _ _ _ _ Hchain), fmap_take.
    eapply sublist_NoDup; [exact Hnames | apply sublist_take].
Qed.

(** When a target that a selected root depends on lists a name that is not
    registered, [evaluate] rejects with what the resolver throws for an
    unregistered name [x] that such a target lists: the error
    [don't know how to build x], unless [Object.prototype] has a member [x],
    in which case it is the [TypeError] of reading [depends.forEach] from
    that member.  No link of the chain runs, the state is untouched and no
    array [required] is produced. *)
Theorem unknown_dependency_rejected (path_resolve : string → string → string)
    (target_names : option (list string)) st root t d :
  root ∈ selected (all_targets st) (default [] target_names) →
  reaches (all_targets st) root (name t) →
  get (all_targets st) (name t) = Some t →
  d ∈ depends t →
  get (all_targets st) d = None →
  ∃ x t' e,
    evaluate path_resolve target_names st = Some (Rejected e, st, [])
    ∧ returned (resolve (all_targets st) (default [] target_names)) = None
    ∧ get (all_targets st) x = None
    ∧ get (all_targets st) (name t') = Some t'
    ∧ x ∈ depends t'
    ∧ from_roots (all_targets st)
        (selected (all_targets st) (default [] target_names)) (name t')
    ∧ (inherited_member x = false →
         e = Error ("don't know how to build " +:+ x))
    ∧ (inherited_member x = true →
         e = TypeError
               "Cannot read properties of undefined (reading 'forEach')").
Proof.
  intros Hroot Hreach Hget Hd Hnone.
  destruct (resolve_unknown_dependency _ _ _ _ _ Hroot Hreach Hget Hd Hnone)
    as [e Hthrow].
  destruct (resolve_Throw _ _ _ Hthrow)
    as (root' & t' & x & Hroot' & Hreach' & Hget' & Hx & Hxnone & He).
  exists x, t', e.
  split_and!; [by apply evaluate_Throw|by rewrite Hthrow|done..|by exists root'| |].
  - by intros Hinh; rewrite Hinh in He.
  - by intros Hinh; rewrite Hinh in He.
Qed.


End ResolverProperties.

(** ** Properties of root selection *)

Section SelectionProperties.
Context {Heap Val : Type}.
Variable path_resolve : string → string → string.
Implicit Types (reg : Registry Heap Val) (st : State Heap Val).
Implicit Types (t : TargetType Heap Val) (e : Thrown Val).

Lemma thrown_Some (p : Picked Heap Val) e : thrown p = Some e → p = Throw e.
Proof. destruct p; [done| |done]. by intros [= <-]. Qed.

Lemma selected_nil reg (target_names : list string) :
  target_names ≠ [] →
  (∀ y, y ∈ target_names → get reg y = None) →
  selected reg target_names = [].
Proof.
  intros Hne Hnone.
  destruct (selected reg target_names) as [|key keys] eqn:Hsel; [done|].
  assert (key ∈ selected reg target_names) as Hin by (rewrite Hsel; left).
  apply elem_of_selected in Hin as [[t Ht] [?|Hin]]; [done|].
  rewrite (Hnone key Hin) in Ht. done.
Qed.

Lemma selected_same_names reg (names names' : list string) :
  names ≠ [] → names' ≠ [] → (∀ x, x ∈ names ↔ x ∈ names') →
  selected reg names = selected reg names'.
Proof.
  intros Hne Hne' Hsame. unfold selected. apply list_filter_iff. intros key.
  rewrite !length_zero_iff_nil, Hsame. tauto.
Qed.

(** C2, as amended.  The roots that [evaluate] resolves are the registered
    names that occur in [target_names]; a name of [target_names] that is not
    registered is not among them.  When no name of [target_names] is
    registered, [evaluate] is accepted and no link runs.  When the resolver
    returns, the array [required] holds the registered targets that the
    registered names of [target_names] lead to, and the links that run are
    its first targets, in order.  When the resolver throws, it is for an
    unregistered name [d] listed in the [depends] of a registered target that
    a registered name of [target_names] leads to; the error is
    [don't know how to build d], unless [Object.prototype] has a member [d];
    [evaluate] rejects with what the resolver threw and no link runs. *)
Theorem C2_unknown_root (target_names : list string) st x :
  x ∈ target_names →
  get (all_targets st) x = None →
  (∀ k, k ∈ selected (all_targets st) target_names ↔
        is_Some (get (all_targets st) k) ∧ k ∈ target_names)
  ∧ (x ∉ selected (all_targets st) target_names)
  ∧ ((∀ y, y ∈ target_names → get (all_targets st) y = None) →
       evaluate path_resolve (Some target_names) st
         = Some (Accepted None, st, []))
  ∧ (∀ required,
       returned (resolve (all_targets st) target_names) = Some required →
       (∀ t, t ∈ required ↔
          get (all_targets st) (name t) = Some t
          ∧ ∃ k, k ∈ target_names ∧ is_Some (get (all_targets st) k)
                 ∧ reaches (all_targets st) k (name t))
       ∧ ∃ o w evs,
           evaluate path_resolve (Some target_names) st
             = Some (o, {| all_targets := all_targets st; process := w |}, evs)
           ∧ ev_target <$> evs = take (length evs) required
           ∧ (∀ r, o = Accepted r → ev_target <$> evs = required))
  ∧ (∀ e, thrown (resolve (all_targets st) target_names) = Some e →
       evaluate path_resolve (Some target_names) st = Some (Rejected e, st, [])
       ∧ ∃ d t k,
           get (all_targets st) d = None
           ∧ get (all_targets st) (name t) = Some t
           ∧ d ∈ depends t
           ∧ k ∈ target_names
           ∧ is_Some (get (all_targets st) k)
           ∧ reaches (all_targets st) k (name t)
           ∧ (inherited_member d = false →
                e = Error ("don't know how to build " +:+ d))
           ∧ (inherited_member d = true →
                e = TypeError
                      "Cannot read properties of undefined (reading 'forEach')")).
Proof.
  intros Hx Hnone.
  assert (target_names ≠ []) as Hne by (by intros ->; apply elem_of_nil in Hx).
  assert (∀ k, k ∈ selected (all_targets st) target_names ↔
               is_Some (get (all_targets st) k) ∧ k ∈ target_names) as Hsel.
  { intros k. rewrite elem_of_selected. naive_solver. }
  split_and!.
  - done.
  - intros [[t Ht] _]%Hsel. congruence.
  - intros Hall. unfold evaluate, resolve. simpl.
    rewrite selected_nil; [|done..].
    simpl. by destruct st.
  - intros required [picked Hres]%returned_Some. split.
    + intros t. rewrite (elem_of_required _ _ _ _ Hres). unfold from_roots.
      split.
      * intros [Hget (k & [Hk Hin]%Hsel & Hreach)]. by eauto 10.
      * intros [Hget (k & Hin & Hk & Hreach)]. split; [done|].
        exists k. split; [by apply Hsel|done].
    + destruct (evaluate_Return path_resolve (Some target_names) _ _ _ Hres)
        as (o & w & evs & Hchain & Heval).
      exists o, w, evs. split_and!; [done| |].
      * by eapply task_chain_targets.
      * intros r ->. by destruct (task_chain_Accepted _ _ _ _ _ _ _ Hchain).
  - intros e Hthrow%thrown_Some. split; [by apply evaluate_Throw|].
    destruct (resolve_Throw _ _ _ Hthrow)
      as (root & t & d & [Hroot Hin]%Hsel & Hreach & Hget & Hd & Hdnone & He).
    exists d, t, root. split_and!; [done..| |].
    + by intros Hinh; rewrite Hinh in He.
    + by intros Hinh; rewrite Hinh in He.
Qed.

(** C8, as amended.  For non-empty [target_names] the roots are the
    registry keys that occur in [target_names], visited in the order in
    which [Object.keys] lists them.  The array [required] is made of one
    part for each root, in that order: the part of a root stands after the
    targets that the roots before it lead to and holds the registered
    targets that the root leads to and that no root before it leads to, the
    record of the root last; so a dependency shared by two roots stands in
    the part of the one whose key comes first.  The order of the names in
    [target_names] has no effect on what [evaluate] does. *)
Theorem C8_roots_in_key_order (names names' : list string) st :
  names ≠ [] → names' ≠ [] → (∀ x, x ∈ names ↔ x ∈ names') →
  (∀ k, k ∈ selected (all_targets st) names ↔
        k ∈ Object_keys (all_targets st) ∧ k ∈ names)
  ∧ (selected (all_targets st) names `sublist_of` Object_keys (all_targets st))
  ∧ (∀ required roots1 r roots2,
       returned (resolve (all_targets st) names) = Some required →
       selected (all_targets st) names = roots1 ++ r :: roots2 →
       ∃ before segment after,
         required = before ++ segment ++ after
         ∧ (∀ t, t ∈ before ↔
              get (all_targets st) (name t) = Some t
              ∧ from_roots (all_targets st) roots1 (name t))
         ∧ (∀ t, t ∈ segment ↔
              get (all_targets st) (name t) = Some t
              ∧ reaches (all_targets st) r (name t)
              ∧ ¬ from_roots (all_targets st) roots1 (name t))
         ∧ (∀ t, get (all_targets st) r = Some t →
              ¬ from_roots (all_targets st) roots1 r →
              list.last segment = Some t))
  ∧ resolve (all_targets st) names = resolve (all_targets st) names'
  ∧ evaluate path_resolve (Some names) st
    = evaluate path_resolve (Some names') st.
Proof.
  intros Hne Hne' Hsame.
  pose proof (selected_same_names (all_targets st) _ _ Hne Hne' Hsame) as Hsel.
  split_and!.
  - intros k. rewrite elem_of_selected, elem_of_Object_keys. naive_solver.
  - apply sublist_filter.
  - intros required roots1 r roots2 [picked Hres]%returned_Some Hroots.
    by eapply resolve_segments.
  - unfold resolve. by rewrite Hsel.
  - unfold evaluate, resolve. simpl. by rewrite Hsel.
Qed.

End SelectionProperties.

(** ** Properties of the executor and of registration *)

Section ExecutorProperties.
Context {Heap Val : Type}.
Variable path_resolve : string → string → string.
Implicit Types (reg : Registry Heap Val) (st : State Heap Val).
Implicit Types (t : TargetType Heap Val) (ev : Event Heap Val) (e : Thrown Val).

(** Every link that [evaluate] runs for a target with a truthy
    [target_path] calls the action in that path resolved against the
    directory the link started in; unless the action threw before returning,
    the link ends in the directory it started in. *)
Lemma evaluate_scoped (target_names : option (list string)) st o st' evs :
  evaluate path_resolve target_names st = Some (o, st', evs) →
  ∀ ev, ev ∈ evs → truthy (target_path (options (ev_target ev))) = true →
    (∃ p, target_path (options (ev_target ev)) = Some p
       ∧ ev_during ev = path_resolve (ev_before ev) p)
    ∧ (¬ threw ev → ev_after ev = ev_before ev).
Proof.
  intros [(e & _ & _ & _ & ->)|(r & p & w & _ & Hchain & _)]%evaluate_inv.
  - by intros ev ?%elem_of_nil.
  - by eapply task_chain_scoped.
Qed.

(** A link of [evaluate] starts only after the link before it was accepted,
    in the directory that link ended in. *)
Lemma evaluate_chained (target_names : option (list string)) st o st' evs
    k ev ev' :
  evaluate path_resolve target_names st = Some (o, st', evs) →
  evs !! k = Some ev → evs !! S k = Some ev' →
  ev_settlement ev = Fulfils ∧ ev_before ev' = ev_after ev.
Proof.
  intros [(e & _ & _ & _ & ->)|(r & p & w & _ & Hchain & _)]%evaluate_inv.
  - done.
  - by eapply task_chain_chained.
Qed.

(** C4.  When the action of the [k]-th link fails with [e], that link is the
    last one to run, the links that ran are those of the first [k + 1]
    targets of [required], and [evaluate] rejects with [e] itself. *)
Theorem C4_fail_fast (target_names : option (list string)) st
    (required : list (TargetType Heap Val)) o st' evs k ev e :
  returned (resolve (all_targets st) (default [] target_names)) = Some required →
  evaluate path_resolve target_names st = Some (o, st', evs) →
  evs !! k = Some ev →
  failed ev e →
  required !! k = Some (ev_target ev)
  ∧ o = Rejected e
  ∧ length evs = S k
  ∧ ev_target <$> evs = take (S k) required.
Proof.
  intros [picked Hres]%returned_Some Heval Hk Hfail.
  apply evaluate_inv in Heval as [(e' & _ & _ & _ & ->)|(r & p & w & Hr & Hchain & _)];
    [done|].
  rewrite Hres in Hr. injection Hr as <- <-.
  destruct (task_chain_failed _ _ _ _ _ _ _ _ _ _ Hchain Hk Hfail) as [-> Hlen].
  pose proof (task_chain_targets _ _ _ _ _ _ _ Hchain) as Htargets.
  rewrite Hlen in Htargets. split_and!; [|done..].
  assert ((ev_target <$> evs) !! k = Some (ev_target ev)) as Hlook
    by (by rewrite list_lookup_fmap, Hk).
  rewrite Htargets in Hlook. by apply lookup_take_Some in Hlook as [? _].
Qed.

(** C9, as amended.  A call of [target] with an argument object returns the
    record built from the arguments, defaults included, and stores it.
    After two such calls with the same name, other than [__proto__], the
    registry holds under that name the record built from the arguments of
    the second call; every other name is as before, and the second call adds
    no key and moves none. *)
Theorem C9_last_registration_wins reg (n : string)
    (depends1 depends2 : option (list string))
    (options1 options2 : option TargetOptionsType)
    (action1 action2 : option (Action Heap Val)) :
  n ≠ "__proto__" →
  ∃ rtn1 reg1 rtn2 reg2,
    target_call (Some {| arg_name := n; arg_depends := depends1;
                         arg_options := options1; arg_action := action1 |})
                reg = (inr rtn1, reg1)
    ∧ target_call (Some {| arg_name := n; arg_depends := depends2;
                           arg_options := options2; arg_action := action2 |})
                  reg1 = (inr rtn2, reg2)
    ∧ rtn2 = {| name := n; depends := default [] depends2;
                action := default noop action2;
                options := default empty_options options2 |}
    ∧ get reg2 n = Some rtn2
    ∧ property reg2 n = Own rtn2
    ∧ (∀ key, key ≠ n → get reg2 key = get reg key)
    ∧ (∀ key, key ≠ n → property reg2 key = property reg key)
    ∧ Object_keys reg2 = Object_keys reg1
    ∧ length reg2 = length reg1.
Proof.
  intros _.
  set (first := {| arg_name := n; arg_depends := depends1;
                   arg_options := options1; arg_action := action1 |}).
  set (second := {| arg_name := n; arg_depends := depends2;
                    arg_options := options2; arg_action := action2 |}).
  set (reg1 := (target first reg).2).
  set (rtn := (target second reg1).1).
  set (reg2 := (target second reg1).2).
  exists (target first reg).1, reg1, rtn, reg2.
  assert (get reg2 n = Some rtn) as Hget by exact (get_set_property_eq rtn reg1).
  assert (∀ key, key ≠ n → get reg2 key = get reg key) as Hframe.
  { intros key Hne. unfold reg2, reg1. simpl. by rewrite !get_set_property_ne. }
  assert (name rtn ∈ name <$> reg1) as Hold.
  { apply get_is_Some. exists (target first reg).1.
    exact (get_set_property_eq (target first reg).1 reg). }
  pose proof (names_set_property_old rtn reg1 Hold : name <$> reg2 = _) as Hnames.
  split_and!; [done|done|done|done| |done| | |].
  - unfold property. by rewrite Hget.
  - intros key Hne. unfold property. by rewrite Hframe.
  - unfold Object_keys. by rewrite Hnames.
  - by rewrite <-(length_fmap name reg2), Hnames, length_fmap.
Qed.

(** [evaluate] is [evaluate_with] for actions that do not write the
    registry. *)
Lemma task_chain_with_confined required results st :
  task_chain_with path_resolve (λ t, confined (action t)) required results st
  = let '(o, w, evs) := task_chain path_resolve required results (process st) in
    (o, {| all_targets := all_targets st; process := w |}, evs).
Proof.
  revert results st. induction required as [|t required IH]; intros results st.
  - simpl. by destruct st.
  - simpl. unfold run_target_with, run_target, confined, on_process. simpl.
    destruct (action t (enter path_resolve t (process st))) as [s w2] eqn:Hact.
    destruct s as [|e|e]; simpl; [|done..].
    rewrite IH. simpl.
    by destruct (task_chain path_resolve required (Some t) _) as [[o w] evs].
Qed.

Lemma evaluate_with_confined (target_names : option (list string)) st :
  evaluate_with path_resolve (λ t, confined (action t)) target_names st
  = evaluate path_resolve target_names st.
Proof.
  unfold evaluate_with, evaluate.
  destruct (resolve _ _) as [|e|required picked]; [done..|].
  rewrite task_chain_with_confined.
  by destruct (task_chain path_resolve required None _) as [[o w] evs].
Qed.

Lemma run_target_with_event effect t st ev st' :
  run_target_with path_resolve effect t st = (ev, st') →
  ev_target ev = t
  ∧ (all_targets (effect t (on_process (enter path_resolve t) st)).2
       = all_targets st →
     all_targets st' = all_targets st).
Proof.
  unfold run_target_with.
  destruct (effect t _) as [s st2] eqn:Heff. intros [= <- <-].
  split; [done|]. simpl. intros <-. by destruct s.
Qed.

Lemma task_chain_with_targets effect required results st o st' evs :
  task_chain_with path_resolve effect required results st = (o, st', evs) →
  ev_target <$> evs = take (length evs) required.
Proof.
  revert results st o st' evs.
  induction required as [|t required IH]; intros results st o st' evs; simpl.
  - by intros [= <- <- <-].
  - destruct (run_target_with _ effect t st) as [ev st1] eqn:Hrun.
    destruct (run_target_with_event _ _ _ _ _ Hrun) as [Ht _].
    destruct (ev_settlement ev).
    + destruct (task_chain_with _ effect required (Some t) st1)
        as [[o' st2] evs'] eqn:Hrest.
      intros [= <- <- <-]. csimpl. by rewrite Ht, (IH _ _ _ _ _ Hrest).
    + intros [= <- <- <-]. by rewrite <-Ht.
    + intros [= <- <- <-]. by rewrite <-Ht.
Qed.

Lemma task_chain_with_registry effect required results st o st' evs :
  task_chain_with path_resolve effect required results st = (o, st', evs) →
  (∀ ev s, ev ∈ evs → all_targets (effect (ev_target ev) s).2 = all_targets s) →
  all_targets st' = all_targets st.
Proof.
  revert results st o st' evs.
  induction required as [|t required IH]; intros results st o st' evs; simpl.
  - by intros [= <- <- <-].
  - destruct (run_target_with _ effect t st) as [ev st1] eqn:Hrun.
    destruct (run_target_with_event _ _ _ _ _ Hrun) as [Ht Hreg].
    assert (∀ evs' : list (Event Heap Val), ev ∈ evs' →
              (∀ ev' s, ev' ∈ evs' →
                 all_targets (effect (ev_target ev') s).2 = all_targets s) →
              all_targets st1 = all_targets st) as Hstep.
    { intros evs' Hin Hkeep. apply Hreg.
      pose proof (Hkeep ev (on_process (enter path_resolve t) st) Hin) as Hk.
      rewrite Ht in Hk. by rewrite Hk. }
    destruct (ev_settlement ev).
    + destruct (task_chain_with _ effect required (Some t) st1)
        as [[o' st2] evs'] eqn:Hrest.
      intros [= <- <- <-] Hkeep.
      rewrite (IH _ _ _ _ _ Hrest), (Hstep (ev :: evs')); [done|left|done|].
      intros ev' s Hin. apply Hkeep. by right.
    + intros [= <- <- <-] Hkeep. apply (Hstep [ev]); [left|done].
    + intros [= <- <- <-] Hkeep. apply (Hstep [ev]); [left|done].
Qed.


End ExecutorProperties.

(** ** The properties on the example build definitions *)

Section Examples.
Import Demo.

Lemma A_independent_of_B : ¬ reaches registry "A" "B".
Proof.
  intros [Heq|(y & (t & Hget & Hd) & _)]%rtc_inv; [discriminate|].
  vm_compute in Hget. injection Hget as <-. by apply elem_of_nil in Hd.
Qed.

(** Scenario 1 of the specification: [evaluate(["C"])] runs A, B, C. *)
Example evaluate_C :
  evaluate resolve_dir (Some ["C"]) (state registry)
  = Some (Accepted (Some C), state registry, [quiet A; quiet B; quiet C]).
Proof. reflexivity. Qed.

(** On the chain [B] at index 1 lists ["A"], and [A] stands at index 0. *)
Example dependency_order_chain :
  ∃ i dep, i < 1 ∧ get registry "A" = Some dep ∧ [A; B; C] !! i = Some dep.
Proof.
  apply (dependency_order_unless_cyclic registry ["C"] [A; B; C] eq_refl
           1 B "A" eq_refl).
  - left.
  - exact A_independent_of_B.
Qed.

(** C1 fails when two targets list each other.  The resolver adds a name to
    [picked] before it visits the dependencies, so the visit of ["A"] visits
    ["B"], which skips ["A"] as already picked: [evaluate(["A"])] resolves
    to [B] followed by [A], although [B] lists ["A"] and [A] is registered. *)
Theorem C1_cyclic_dependency_out_of_order :
  returned (resolve cyclic ["A"]) = Some [B_needs_A; A_needs_B]
  ∧ evaluate resolve_dir (Some ["A"]) (state cyclic)
    = Some (Accepted (Some A_needs_B), state cyclic,
            [quiet B_needs_A; quiet A_needs_B])
  ∧ ¬ dependencies_first cyclic [B_needs_A; A_needs_B].
Proof.
  split_and!; [reflexivity | reflexivity |]. intros Hfirst.
  destruct (Hfirst 0 B_needs_A "A" A_needs_B eq_refl) as (i & Hlt & _);
    [left | reflexivity | lia].
Qed.

(** C2 as stated fails: ["X"] is not registered, yet [evaluate(["X", "A"])]
    is accepted and the action of [A] runs. *)
Lemma C2_counterexample :
  "X" ∈ ["X"; "A"]
  ∧ get registry "X" = None
  ∧ evaluate resolve_dir (Some ["X"; "A"]) (state registry)
    = Some (Accepted (Some A), state registry, [quiet A])
  ∧ ∀ e st', evaluate resolve_dir (Some ["X"; "A"]) (state registry) ≠ Some (Rejected e, st', []).
Proof. split_and!; [left | reflexivity | reflexivity | done]. Qed.

(** C2 on the chain: ["X"] alone selects nothing and [evaluate] is accepted;
    on the incomplete registry the resolver's error names ["missing"]. *)
Lemma C2_unknown_root_witness :
  "X" ∈ ["X"]
  ∧ get (all_targets (state registry)) "X" = None
  ∧ (∀ y, y ∈ ["X"] → get (all_targets (state registry)) y = None)
  ∧ evaluate resolve_dir (Some ["X"]) (state registry) = Some (Accepted None, state registry, []).
Proof.
  assert (∀ y, y ∈ ["X"] → get (all_targets (state registry)) y = None) as Hall.
  { intros y ->%list_elem_of_singleton. reflexivity. }
  split_and!; [left | reflexivity | exact Hall |].
  destruct (C2_unknown_root resolve_dir ["X"] (state registry) "X")
    as (_ & _ & Haccepted & _); [left | reflexivity |].
  exact (Haccepted Hall).
Defined.

(** C3 fails on an action that throws before it returns: the link of
    [throwing] switches to [/w/sub], the exception leaves the executor
    function of the promise, and the directory is still [/w/sub] when
    [evaluate] has rejected. *)
Theorem C3_thrown_action_leaves_directory :
  evaluate resolve_dir (Some ["A"]) (state [throwing])
  = Some (Rejected (Error "boom"),
          {| all_targets := [throwing];
             process := {| cwd := "/w/sub"; heap := tt |} |},
          [{| ev_target := throwing; ev_before := "/w"; ev_during := "/w/sub";
              ev_settlement := Throws (Error "boom"); ev_after := "/w/sub" |}]).
Proof. reflexivity. Qed.

(** The same target with an action that returns a rejecting promise: the
    [catch] handler restores [/w]. *)
Example rejected_action_restores_directory :
  evaluate resolve_dir (Some ["A"]) (state [rejecting])
  = Some (Rejected (Error "boom"), state [rejecting],
          [{| ev_target := rejecting; ev_before := "/w"; ev_during := "/w/sub";
              ev_settlement := Rejects (Error "boom"); ev_after := "/w" |}]).
Proof. reflexivity. Qed.

(** C4 on the chain with a rejecting [B]: [A] and [B] run, [C] does not, and
    [evaluate] rejects with the value [B] rejected with. *)
Lemma C4_fail_fast_witness :
  returned (resolve (all_targets (state failing)) (default [] (Some ["C"])))
    = Some [A; B_rejecting; C]
  ∧ evaluate resolve_dir (Some ["C"]) (state failing)
    = Some (Rejected (Raised "exit status 2"), state failing,
            [quiet A; B_rejected])
  ∧ [quiet A; B_rejected] !! 1 = Some B_rejected
  ∧ failed B_rejected (Raised "exit status 2")
  ∧ [A; B_rejecting; C] !! 1 = Some (ev_target B_rejected)
  ∧ (Rejected (Raised "exit status 2") : Outcome unit string)
    = Rejected (Raised "exit status 2")
  ∧ length [quiet A; B_rejected] = 2
  ∧ ev_target <$> [quiet A; B_rejected] = take 2 [A; B_rejecting; C].
Proof.
  split_and!; [reflexivity | reflexivity | reflexivity | by right |..];
    apply (C4_fail_fast resolve_dir (Some ["C"]) (state failing)
             [A; B_rejecting; C] (Rejected (Raised "exit status 2"))
             (state failing) [quiet A; B_rejected] 1 B_rejected
             (Raised "exit status 2")
             eq_refl eq_refl eq_refl (or_intror eq_refl)).
Defined.

(** C5 on the shared dependency: [lib] is reached from [app] and from
    [doc], and is in [required] once. *)
Lemma C5_at_most_once_witness :
  returned (resolve (all_targets (state shared))
              (default [] (Some ["doc"; "app"])))
    = Some [lib; app; gen; doc]
  ∧ evaluate resolve_dir (Some ["doc"; "app"]) (state shared)
    = Some (Accepted (Some doc), state shared,
            [quiet lib; quiet app; quiet gen; quiet doc])
  ∧ NoDup (name <$> [lib; app; gen; doc])
  ∧ NoDup (name <$> (ev_target <$> [quiet lib; quiet app; quiet gen; quiet doc])).
Proof.
  destruct (C5_at_most_once resolve_dir (Some ["doc"; "app"]) (state shared)
              [lib; app; gen; doc] (Accepted (Some doc)) (state shared)
              [quiet lib; quiet app; quiet gen; quiet doc] eq_refl eq_refl)
    as (Hnames & _ & Hlinks).
  split_and!; [reflexivity | reflexivity | exact Hnames | exact Hlinks].
Defined.

(** On the incomplete registry [D] lists ["missing"], and
    [evaluate(["D"])] rejects without running [A]. *)
Lemma unknown_dependency_rejected_witness :
  "D" ∈ selected (all_targets (state incomplete)) (default [] (Some ["D"]))
  ∧ reaches (all_targets (state incomplete)) "D" (name D)
  ∧ get (all_targets (state incomplete)) (name D) = Some D
  ∧ "missing" ∈ depends D
  ∧ get (all_targets (state incomplete)) "missing" = None
  ∧ ∃ x t' e,
      evaluate resolve_dir (Some ["D"]) (state incomplete)
        = Some (Rejected e, state incomplete, [])
      ∧ returned (resolve (all_targets (state incomplete))
                    (default [] (Some ["D"]))) = None
      ∧ get (all_targets (state incomplete)) x = None
      ∧ get (all_targets (state incomplete)) (name t') = Some t'
      ∧ x ∈ depends t'
      ∧ from_roots (all_targets (state incomplete))
          (selected (all_targets (state incomplete)) (default [] (Some ["D"])))
          (name t')
      ∧ (inherited_member x = false →
           e = Error ("don't know how to build " +:+ x))
      ∧ (inherited_member x = true →
           e = TypeError
                 "Cannot read properties of undefined (reading 'forEach')").
Proof.
  assert ("D" ∈ selected (all_targets (state incomplete))
                   (default [] (Some ["D"]))) as Hroot.
  { apply elem_of_selected. split; [by exists D | right; left]. }
  assert ("missing" ∈ depends D) as Hdep by (right; left).
  split_and!; [exact Hroot | apply rtc_refl | reflexivity | exact Hdep
              | reflexivity |].
  exact (unknown_dependency_rejected resolve_dir (Some ["D"]) (state incomplete)
           "D" D "missing" Hroot (rtc_refl _ _) eq_refl Hdep eq_refl).
Defined.

(** C6 fails on a dependency name for which [Object.prototype] has a member.
    [A] lists ["toString"], which is not a key of the registry;
    [all_targets["toString"]] is the inherited function, which is truthy, so
    the resolver goes on to read [depends.forEach] from it:
    [evaluate(["A"])] rejects with a [TypeError] that does not name the
    dependency, not with [don't know how to build toString]. *)
Theorem C6_inherited_name_not_reported :
  get reading_prototype (name A_needs_toString) = Some A_needs_toString
  ∧ depends A_needs_toString = ["toString"]
  ∧ get reading_prototype "toString" = None
  ∧ evaluate resolve_dir (Some ["A"]) (state reading_prototype)
    = Some (Rejected
              (TypeError
                 "Cannot read properties of undefined (reading 'forEach')"),
            state reading_prototype, [])
  ∧ evaluate resolve_dir (Some ["A"]) (state reading_prototype)
    ≠ Some (Rejected (Error "don't know how to build toString"),
            state reading_prototype, []).
Proof. split_and!; [reflexivity..|discriminate]. Qed.

Example evaluate_D :
  evaluate resolve_dir (Some ["D"]) (state incomplete)
  = Some (Rejected (Error "don't know how to build missing"),
          state incomplete, []).
Proof. reflexivity. Qed.


(** Scenario 2 of the specification, with the default argument. *)
Example evaluate_default :
  evaluate resolve_dir None (state [A; B])
  = Some (Accepted (Some B), state [A; B], [quiet A; quiet B]).
Proof. reflexivity. Qed.


(** C8 as stated fails: for [evaluate(["doc", "app"])] a left-to-right
    traversal of the names would visit [doc] first and place [lib] after
    [gen]; the resolver visits [app] first, because its key comes first in
    the registry, and places [lib] first. *)
Lemma C8_counterexample :
  returned_names (resolve shared ["doc"; "app"])
    = Some ["lib"; "app"; "gen"; "doc"]
  ∧ returned_names (spec_resolve_left_to_right shared ["doc"; "app"])
    = Some ["gen"; "lib"; "doc"; "app"]
  ∧ resolve shared ["doc"; "app"]
    ≠ spec_resolve_left_to_right shared ["doc"; "app"].
Proof.
  split_and!; [reflexivity | reflexivity |].
  intros Heq. apply (f_equal returned_names) in Heq. vm_compute in Heq.
  discriminate.
Qed.

(** C8 on the shared dependency: the roots are [app] and [doc] in that
    order, [lib] stands in the part of [app], and the two orders of the
    names give the same evaluation. *)
Lemma C8_roots_in_key_order_witness :
  ["doc"; "app"] ≠ []
  ∧ ["app"; "doc"] ≠ []
  ∧ (∀ x : string, x ∈ ["doc"; "app"] ↔ x ∈ ["app"; "doc"])
  ∧ returned (resolve (all_targets (state shared)) ["doc"; "app"])
    = Some [lib; app; gen; doc]
  ∧ selected (all_targets (state shared)) ["doc"; "app"] = ["app"] ++ ["doc"]
  ∧ (∃ before segment after,
       [lib; app; gen; doc] = before ++ segment ++ after
       ∧ (∀ t, t ∈ before ↔
            get (all_targets (state shared)) (name t) = Some t
            ∧ from_roots (all_targets (state shared)) ["app"] (name t))
       ∧ (∀ t, t ∈ segment ↔
            get (all_targets (state shared)) (name t) = Some t
            ∧ reaches (all_targets (state shared)) "doc" (name t)
            ∧ ¬ from_roots (all_targets (state shared)) ["app"] (name t))
       ∧ (∀ t, get (all_targets (state shared)) "doc" = Some t →
            ¬ from_roots (all_targets (state shared)) ["app"] "doc" →
            list.last segment = Some t))
  ∧ resolve (all_targets (state shared)) ["doc"; "app"]
    = resolve (all_targets (state shared)) ["app"; "doc"]
  ∧ evaluate resolve_dir (Some ["doc"; "app"]) (state shared)
    = evaluate resolve_dir (Some ["app"; "doc"]) (state shared).
Proof.
  assert (∀ x : string, x ∈ ["doc"; "app"] ↔ x ∈ ["app"; "doc"]) as Hsame.
  { intros x. rewrite !elem_of_cons. tauto. }
  destruct (C8_roots_in_key_order resolve_dir ["doc"; "app"] ["app"; "doc"]
              (state shared) ltac:(discriminate) ltac:(discriminate) Hsame)
    as (_ & _ & Hsegments & Hres & Heval).
  split_and!; [discriminate | discriminate | exact Hsame | reflexivity
              | reflexivity | | exact Hres | exact Heval].
  exact (Hsegments [lib; app; gen; doc] ["app"] "doc" [] eq_refl eq_refl).
Defined.

(** C9 as stated fails: [target()] has no object to take [name] from and
    rejects with a [TypeError]; nothing is registered. *)
Lemma C9_counterexample :
  target_call None [A]
  = (inl (TypeError
            "Cannot destructure property 'name' of 'undefined' as it is undefined."),
     [A])
  ∧ ∀ rtn reg, target_call None [A] ≠ (inr rtn, reg).
Proof. split; [reflexivity | done]. Qed.

(** C9 on [A], registered with a dependency and a directory and then again
    with nothing but its name. *)
Lemma C9_last_registration_wins_witness :
  "A" ≠ "__proto__"
  ∧ ∃ rtn1 reg1 rtn2 reg2,
      target_call (Some {| arg_name := "A"; arg_depends := Some ["x"];
                           arg_options := Some in_sub; arg_action := None |})
                  [B] = (inr rtn1, reg1)
      ∧ target_call (Some {| arg_name := "A"; arg_depends := None;
                             arg_options := None; arg_action := None |})
                    reg1 = (inr rtn2, reg2)
      ∧ rtn2 = A
      ∧ get reg2 "A" = Some rtn2.
Proof.
  split; [discriminate|].
  destruct (C9_last_registration_wins [B] "A" (Some ["x"]) None (Some in_sub)
              None None None ltac:(discriminate))
    as (rtn1 & reg1 & rtn2 & reg2 & H1 & H2 & Hrtn & Hget & _).
  exists rtn1, reg1, rtn2, reg2. split_and!; [exact H1 | exact H2 | exact Hrtn | exact Hget].
Defined.


(** [Object.keys] lists array indices first, in numeric order. *)
Example Object_keys_order :
  Object_keys [mk "b" []; mk "10" []; mk "a" []; mk "9" []; mk "01" []]
  = ["9"; "10"; "b"; "a"; "01"].
Proof. reflexivity. Qed.

(** Registering a name again keeps the place of its key. *)
Example target_twice :
  let first := {| arg_name := "A"; arg_depends := Some ["x"];
                  arg_options := Some in_sub; arg_action := None |} in
  let second := {| arg_name := "A"; arg_depends := None;
                   arg_options := None; arg_action := None |} in
  (target second (target first [B]).2).2 = [B; A].
Proof. reflexivity. Qed.

End Examples.

(** ** More on the registry *)

Section RegistryInvariants.
Context {Heap Val : Type}.
Implicit Types (reg : Registry Heap Val) (t rtn : TargetType Heap Val).
Implicit Types (args : TargetArgs Heap Val) (key : string).

(** Registering a name, other than [__proto__], that is not yet a key
    creates the key last in creation order and leaves every other entry as it
    was. *)
Theorem target_new_name args reg :
  arg_name args ≠ "__proto__" →
  get reg (arg_name args) = None →
  name <$> (target args reg).2 = (name <$> reg) ++ [arg_name args]
  ∧ get (target args reg).2 (arg_name args) = Some (target args reg).1
  ∧ ∀ key, key ≠ arg_name args → get (target args reg).2 key = get reg key.
Proof.
  intros _ Hnew%get_None. split_and!.
  - exact (names_set_property_new (target args reg).1 reg Hnew).
  - exact (get_set_property_eq (target args reg).1 reg).
  - intros key Hne. exact (get_set_property_ne (target args reg).1 reg key Hne).
Qed.

Lemma set_property_names rtn reg :
  name <$> set_property rtn reg
  = (name <$> reg)
    ++ (if decide (name rtn ∈ name <$> reg) then [] else [name rtn]).
Proof.
  case_decide.
  - by rewrite names_set_property_old, app_nil_r.
  - by rewrite names_set_property_new.
Qed.

Lemma set_property_names_two rtn1 rtn2 reg :
  name rtn1 ≠ name rtn2 →
  name <$> set_property rtn2 (set_property rtn1 reg)
  = (name <$> reg)
    ++ (if decide (name rtn1 ∈ name <$> reg) then [] else [name rtn1])
    ++ (if decide (name rtn2 ∈ name <$> reg) then [] else [name rtn2]).
Proof.
  intros Hne. rewrite (set_property_names rtn2), (set_property_names rtn1).
  rewrite <-app_assoc. do 2 f_equal.
  destruct (decide (name rtn2 ∈ name <$> reg)) as [H2|H2].
  - rewrite decide_True; [done|]. apply elem_of_app. by left.
  - rewrite decide_False; [done|].
    intros [?|Hin]%elem_of_app; [done|].
    destruct (decide (name rtn1 ∈ name <$> reg)).
    + by apply elem_of_nil in Hin.
    + apply list_elem_of_singleton in Hin. congruence.
Qed.

Lemma set_property_idempotent rtn reg :
  set_property rtn (set_property rtn reg) = set_property rtn reg.
Proof.
  induction reg as [|t' rest IH]; simpl.
  - by rewrite decide_True.
  - case_decide as Hn; simpl.
    + by rewrite decide_True.
    + rewrite decide_False by done. by rewrite IH.
Qed.

(** Repeating a call of [target] changes nothing, and two calls for
    different names give the same lookups and the same set of keys in either
    order. *)
Theorem target_calls_compose args1 args2 reg :
  arg_name args1 ≠ arg_name args2 →
  (target args1 (target args1 reg).2).2 = (target args1 reg).2
  ∧ (∀ key, get (target args2 (target args1 reg).2).2 key
            = get (target args1 (target args2 reg).2).2 key)
  ∧ Object_keys (target args2 (target args1 reg).2).2
    ≡ₚ Object_keys (target args1 (target args2 reg).2).2.
Proof.
  intros Hne.
  set (rtn1 := (target args1 reg).1). set (rtn2 := (target args2 reg).1).
  assert (∀ key, get (set_property rtn2 (set_property rtn1 reg)) key
                 = get (set_property rtn1 (set_property rtn2 reg)) key) as Hget.
  { intros key. destruct (decide (key = name rtn1)) as [->|Hk1].
    - rewrite get_set_property_ne by done.
      by rewrite !get_set_property_eq.
    - rewrite (get_set_property_ne rtn1 _ key) by done.
      destruct (decide (key = name rtn2)) as [->|Hk2].
      + by rewrite !get_set_property_eq.
      + by rewrite !get_set_property_ne. }
  split_and!.
  - apply set_property_idempotent.
  - exact Hget.
  - rewrite !Object_keys_Permutation. simpl. fold rtn1 rtn2.
    rewrite (set_property_names_two rtn1 rtn2), (set_property_names_two rtn2 rtn1);
      [|by intros ?; apply Hne|done].
    apply Permutation_app_head, Permutation_app_comm.
Qed.

End RegistryInvariants.

(** ** More on the resolver *)

Section ResolverMore.
Context {Heap Val : Type}.
Variable reg : Registry Heap Val.
Implicit Types (t : TargetType Heap Val) (required : list (TargetType Heap Val)).
Implicit Types (picked : gset string) (n d x : string).

Lemma push_each_bound (visit1 visit2 : string → gset string → Picked Heap Val)
    ns bound1 bound2 :
  (∀ n picked, unpicked reg picked < bound1 → unpicked reg picked < bound2 →
     visit1 n picked = visit2 n picked) →
  (∀ n picked r picked', visit1 n picked = Return r picked' →
     picked ⊆ picked') →
  ∀ rtn picked, unpicked reg picked < bound1 → unpicked reg picked < bound2 →
    push_each visit1 ns rtn picked = push_each visit2 ns rtn picked.
Proof.
  intros Hsame Hgrow. induction ns as [|n ns IH]; intros rtn picked H1 H2; simpl.
  - done.
  - rewrite <-(Hsame n picked H1 H2).
    destruct (visit1 n picked) as [|e|r p1] eqn:Hn; [done..|].
    pose proof (unpicked_mono reg _ _ (Hgrow _ _ _ _ Hn)). apply IH; lia.
Qed.

Lemma pick_bound fuel1 fuel2 n picked :
  unpicked reg picked < fuel1 → unpicked reg picked < fuel2 →
  pick_target_and_dependencies fuel1 reg n picked
  = pick_target_and_dependencies fuel2 reg n picked.
Proof.
  revert fuel2 n picked.
  induction fuel1 as [|fuel1 IH]; intros fuel2 n picked H1 H2; [lia|].
  destruct fuel2 as [|fuel2]; [lia|]. simpl.
  unfold property. destruct (get reg n) as [t|] eqn:Hget; [|by destruct (inherited_member n)].
  case_decide as Hpicked; [done|].
  pose proof (unpicked_add reg n picked (mk_is_Some _ _ Hget) Hpicked) as Hadd.
  rewrite (push_each_bound (pick_target_and_dependencies fuel1 reg)
             (pick_target_and_dependencies fuel2 reg) (depends t) fuel1 fuel2);
    [done| |apply pick_grows|lia|lia].
  intros m p Hm1 Hm2. by apply IH.
Qed.

(** The recursion of the resolver ends on every registry, also when targets
    list each other: each call returns or throws, and a recursion bound above
    the number of registered targets has no effect on the result. *)
Theorem resolver_terminates (target_names : list string) fuel :
  length reg < fuel →
  resolve reg target_names ≠ OutOfFuel
  ∧ push_each (pick_target_and_dependencies fuel reg)
      (selected reg target_names) [] ∅
    = resolve reg target_names.
Proof.
  intros Hfuel. split; [apply resolve_total|]. unfold resolve.
  pose proof (unpicked_bound reg) as Hbound.
  eapply push_each_bound; [|apply pick_grows|..].
  - intros n p H1 H2. apply pick_bound; [exact H1 | exact H2].
  - specialize (Hbound ∅). lia.
  - apply Hbound.
Qed.

(** The array [required] is the dependency closure of the selected roots: a
    record is in it exactly when it is registered under its name and that
    name is a selected root or a direct or transitive dependency of one. *)
Theorem required_is_closure (target_names : list string) required :
  returned (resolve reg target_names) = Some required →
  ∀ t, t ∈ required ↔
    get reg (name t) = Some t
    ∧ ∃ root, root ∈ selected reg target_names ∧ reaches reg root (name t).
Proof.
  intros [picked Hres]%returned_Some t.
  by rewrite (elem_of_required _ _ _ _ Hres).
Qed.

(** The resolver throws exactly when a registered target that a selected
    root depends on (or that is a selected root) lists a name that is not
    registered; in every other case it returns. *)
Theorem resolver_throws_iff (target_names : list string) :
  (is_Some (thrown (resolve reg target_names)) ↔
     ∃ root t d, root ∈ selected reg target_names
       ∧ reaches reg root (name t) ∧ get reg (name t) = Some t
       ∧ d ∈ depends t ∧ get reg d = None)
  ∧ (is_Some (thrown (resolve reg target_names))
     ∨ is_Some (returned (resolve reg target_names))).
Proof.
  split; [split|].
  - intros [e He%thrown_Some].
    destruct (resolve_Throw _ _ _ He) as (root & t & d & ? & ? & ? & ? & ? & _).
    by exists root, t, d.
  - intros (root & t & d & Hroot & Hreach & Hget & Hd & Hnone).
    destruct (resolve_unknown_dependency _ _ _ _ _ Hroot Hreach Hget Hd Hnone)
      as [e ->]. by eexists.
  - pose proof (resolve_total reg target_names) as Htotal.
    destruct (resolve reg target_names); [done|left|right]; by eexists.
Qed.

(** When resolving every target returns, resolving any selection returns
    too, and what it returns is part of the full result. *)
Theorem selection_resolves_within_all (target_names : list string) everything :
  returned (resolve reg []) = Some everything →
  ∃ required,
    returned (resolve reg target_names) = Some required
    ∧ required ⊆ everything.
Proof.
  intros [picked Hall]%returned_Some.
  destruct (resolve reg target_names) as [|e|required picked'] eqn:Hres.
  - by apply resolve_total in Hres.
  - exfalso.
    destruct (resolve_Throw _ _ _ Hres)
      as (root & t & d & Hroot & Hreach & Hget & Hd & Hnone & _).
    assert (root ∈ selected reg []) as Hroot'.
    { apply elem_of_selected. apply elem_of_selected in Hroot as [? _]. auto. }
    destruct (resolve_unknown_dependency _ _ _ _ _ Hroot' Hreach Hget Hd Hnone)
      as [e' He']. congruence.
  - exists required. split; [done|]. intros t Ht.
    apply (elem_of_required _ _ _ _ Hres) in Ht as [Hget _].
    apply (elem_of_required _ _ _ _ Hall). split; [done|].
    exists (name t). split; [|apply rtc_refl].
    apply elem_of_selected. split; [by eexists | by left].
Qed.

(** When no registered target depends on itself, directly or through other
    targets, every registered dependency of a target of [required] stands
    before it. *)
Theorem acyclic_dependencies_first (target_names : list string) required :
  (∀ n, ¬ tc (edge reg) n n) →
  returned (resolve reg target_names) = Some required →
  dependencies_first reg required.
Proof.
  intros Hacyclic [picked Hres]%returned_Some j T D dep Hj HD Hdep.
  assert (get reg (name T) = Some T) as HT.
  { apply (elem_of_required _ _ _ _ Hres). by eapply list_elem_of_lookup_2. }
  destruct (required_order _ _ _ _ Hres j T D Hj HD) as (i & dep' & ? & Hdep' & ?).
  - intros Hreach. apply (Hacyclic (name T)).
    eapply tc_rtc_r; [|exact Hreach]. apply tc_once. by exists T.
  - exists i. split; [done|]. congruence.
Qed.

End ResolverMore.

(** ** More on the executor *)

Section ExecutorMore.
Context {Heap Val : Type}.
Variable path_resolve : string → string → string.
Implicit Types (t : TargetType Heap Val) (required : list (TargetType Heap Val)).
Implicit Types (w : World Heap) (ev : Event Heap Val) (e : Thrown Val).
Implicit Types (st : State Heap Val).

Lemma task_chain_Accepted_last required results w r w' evs :
  task_chain path_resolve required results w = (Accepted r, w', evs) →
  r = match list.last required with Some t => Some t | None => results end.
Proof.
  revert results w r w' evs.
  induction required as [|t rest IH]; intros results w r w' evs; simpl.
  - by intros [= <- <- <-].
  - destruct (run_target _ t w) as [ev1 w1] eqn:Hrun.
    destruct (ev_settlement ev1) as [|e1|e1]; [|done..].
    destruct (task_chain _ rest _ w1) as [[o' w''] evs'] eqn:Hrest.
    intros [= -> <- <-]. rewrite (IH _ _ _ _ _ Hrest).
    destruct rest as [|t' rest']; [done|].
    change (list.last (t :: t' :: rest')) with (list.last (t' :: rest')).
    destruct (list.last (t' :: rest')) eqn:Hlast; [done|].
    by apply last_None in Hlast.
Qed.

(** When [evaluate] is accepted, every action fulfilled and the value it is
    accepted with is the last target of [required], or [undefined] when
    [required] is empty. *)
Theorem accepted_with_last_target (target_names : option (list string))
    st required r st' evs :
  returned (resolve (all_targets st) (default [] target_names)) = Some required →
  evaluate path_resolve target_names st = Some (Accepted r, st', evs) →
  r = list.last required
  ∧ ev_target <$> evs = required
  ∧ Forall (λ ev, ev_settlement ev = Fulfils) evs.
Proof.
  intros [picked Hres]%returned_Some Heval.
  apply evaluate_inv in Heval
    as [(e & _ & ? & _)|(r' & p & w & Hr & Hchain & _)]; [done|].
  rewrite Hres in Hr. injection Hr as <- <-.
  destruct (task_chain_Accepted _ _ _ _ _ _ _ Hchain) as [Htargets Hall].
  split_and!; [|done..].
  rewrite (task_chain_Accepted_last _ _ _ _ _ _ Hchain).
  by destruct (list.last required).
Qed.

Lemma run_target_unscoped t w ev w' :
  run_target path_resolve t w = (ev, w') →
  truthy (target_path (options t)) = false →
  ev_during ev = ev_before ev.
Proof.
  intros Hrun Hfalsy.
  destruct (run_target_event _ _ _ _ _ Hrun) as (_ & -> & -> & _).
  unfold enter. destruct (target_path (options t)) as [p|]; [|done].
  by rewrite Hfalsy.
Qed.

Lemma task_chain_unscoped required results w o w' evs :
  task_chain path_resolve required results w = (o, w', evs) →
  ∀ ev, ev ∈ evs → truthy (target_path (options (ev_target ev))) = false →
    ev_during ev = ev_before ev.
Proof.
  revert results w o w' evs.
  induction required as [|t rest IH]; intros results w o w' evs; simpl.
  - intros [= <- <- <-] ev ?%elem_of_nil. done.
  - destruct (run_target _ t w) as [ev1 w1] eqn:Hrun.
    destruct (run_target_event _ _ _ _ _ Hrun) as (Ht & _).
    pose proof (run_target_unscoped _ _ _ _ Hrun) as Hunscoped.
    rewrite <-Ht in Hunscoped.
    destruct (ev_settlement ev1) as [|e1|e1] eqn:Hs.
    + destruct (task_chain _ rest _ w1) as [[o' w''] evs'] eqn:Hrest.
      intros [= <- <- <-] ev [->|Hin]%elem_of_cons; [done|].
      by eapply IH.
    + intros [= <- <- <-] ev ->%list_elem_of_singleton. done.
    + intros [= <- <- <-] ev ->%list_elem_of_singleton. done.
Qed.

(** The working directory of each link that [evaluate] runs.  With a truthy
    [target_path], the action is called in that path resolved against the
    directory the link started in, and the link ends in the directory it
    started in unless the action threw before returning.  With no
    [target_path], or an empty one, the action is called in the directory
    the link started in. *)
Theorem link_working_directory (target_names : option (list string))
    st o st' evs ev :
  evaluate path_resolve target_names st = Some (o, st', evs) →
  ev ∈ evs →
  match target_path (options (ev_target ev)) with
  | Some (String a p) =>
      ev_during ev = path_resolve (ev_before ev) (String a p)
      ∧ (¬ threw ev → ev_after ev = ev_before ev)
  | _ => ev_during ev = ev_before ev
  end.
Proof.
  intros Heval Hin.
  pose proof (evaluate_scoped _ _ _ _ _ _ Heval ev Hin) as Hscoped.
  apply evaluate_inv in Heval
    as [(e & _ & _ & _ & ->)|(r & p & w & _ & Hchain & _)];
    [by apply elem_of_nil in Hin|].
  pose proof (task_chain_unscoped _ _ _ _ _ _ Hchain ev Hin) as Hunscoped.
  destruct (target_path (options (ev_target ev))) as [[|a p']|]; [by auto| |by auto].
  destruct (Hscoped eq_refl) as [(p0 & [= <-] & Hduring) Hafter]. done.
Qed.

(** The links run one after the other: every link but the last one that ran
    has an action that fulfilled, and each link starts in the directory in
    which the link before it ended. *)
Theorem links_run_in_sequence (target_names : option (list string))
    st o st' evs k ev :
  evaluate path_resolve target_names st = Some (o, st', evs) →
  evs !! k = Some ev →
  S k < length evs →
  ev_settlement ev = Fulfils
  ∧ ∃ ev', evs !! S k = Some ev' ∧ ev_before ev' = ev_after ev.
Proof.
  intros Heval Hk Hlt.
  destruct (lookup_lt_is_Some_2 evs (S k) Hlt) as [ev' Hnext].
  destruct (evaluate_chained _ _ _ _ _ _ _ _ _ Heval Hk Hnext) as [? ?].
  split; [done|]. by exists ev'.
Qed.

Lemma task_chain_cwd required results w o w' evs :
  task_chain path_resolve required results w = (o, w', evs) →
  (∀ ev, ev ∈ evs → ev_after ev = ev_before ev) →
  cwd w' = cwd w.
Proof.
  revert results w o w' evs.
  induction required as [|t rest IH]; intros results w o w' evs; simpl.
  - by intros [= <- <- <-].
  - destruct (run_target _ t w) as [ev1 w1] eqn:Hrun.
    destruct (run_target_event _ _ _ _ _ Hrun) as (_ & Hb & _ & _ & Ha).
    destruct (ev_settlement ev1) as [|e1|e1] eqn:Hs.
    + destruct (task_chain _ rest _ w1) as [[o' w''] evs'] eqn:Hrest.
      intros [= <- <- <-] Hall.
      rewrite (IH _ _ _ _ _ Hrest); [|by intros ev ?; apply Hall; right].
      rewrite <-Ha, <-Hb. apply Hall. left.
    + intros [= <- <- <-] Hall. rewrite <-Ha, <-Hb. apply Hall. left.
    + intros [= <- <- <-] Hall. rewrite <-Ha, <-Hb. apply Hall. left.
Qed.

(** When every target that runs has a truthy [target_path] and no action
    throws before returning, [evaluate] leaves the process in the working
    directory it found it in, whatever the actions did to it and whether the
    call is accepted or rejected. *)
Theorem evaluate_keeps_working_directory (target_names : option (list string))
    st o st' evs :
  evaluate path_resolve target_names st = Some (o, st', evs) →
  (∀ ev, ev ∈ evs →
     truthy (target_path (options (ev_target ev))) = true ∧ ¬ threw ev) →
  cwd (process st') = cwd (process st).
Proof.
  intros Heval Hall.
  pose proof (evaluate_scoped _ _ _ _ _ _ Heval) as Hscoped.
  apply evaluate_inv in Heval
    as [(e & _ & _ & -> & _)|(r & p & w & _ & Hchain & ->)]; [done|].
  simpl. eapply task_chain_cwd; [exact Hchain|].
  intros ev Hin. destruct (Hall ev Hin) as [Htruthy Hnot].
  by apply (Hscoped ev Hin Htruthy).
Qed.

End ExecutorMore.

(** ** The command line *)

Section CliProperties.
Context {Heap Val : Type}.
Variable path_resolve : string → string → string.
Variable to_string : Val → string.
Implicit Types (reg : Registry Heap Val) (st : State Heap Val).
Implicit Types (t : TargetType Heap Val) (inv : Invocation Heap Val).
Implicit Types (required : list (TargetType Heap Val)).

Lemma names_of_values reg : name <$> all_targets_values reg = Object_keys reg.
Proof.
  unfold all_targets_values.
  assert (∀ k, k ∈ Object_keys reg → is_Some (get reg k)) as Hkeys
    by (by intros k ?%elem_of_Object_keys).
  induction (Object_keys reg) as [|k ks IH]; csimpl; [done|].
  destruct (Hkeys k) as [t Ht]; [left|]. rewrite Ht. csimpl.
  rewrite (get_name _ _ _ Ht), IH; [done|].
  intros k' Hk'. apply Hkeys. by right.
Qed.

Lemma is_interactive_spec t :
  is_interactive t = true ↔ interactive (options t) ≠ Some false.
Proof.
  unfold is_interactive. destruct (interactive (options t)) as [[|]|]; simpl;
    split; congruence.
Qed.

Lemma choice_values reg :
  choice_value <$> choices reg = name <$> interactive_targets reg.
Proof. unfold choices. rewrite <-list_fmap_compose. done. Qed.

Lemma elem_of_choice_values reg k :
  k ∈ choice_value <$> choices reg ↔
  ∃ t, get reg k = Some t ∧ interactive (options t) ≠ Some false.
Proof.
  rewrite choice_values, list_elem_of_fmap. unfold interactive_targets. split.
  - intros (t & -> & [Hint Hin]%list_elem_of_filter).
    apply list_elem_of_omap in Hin as (k & _ & Hget).
    exists t. rewrite (get_name _ _ _ Hget). by rewrite <-is_interactive_spec.
  - intros (t & Hget & Hint). exists t. split; [by rewrite (get_name _ _ _ Hget)|].
    apply list_elem_of_filter. split; [by apply is_interactive_spec|].
    apply list_elem_of_omap. exists k. split; [|done].
    apply elem_of_Object_keys. by eexists.
Qed.

(** The prompt offers the registered targets whose [interactive] option is
    not [false], once each in the order of [Object.keys], every one of them
    preselected and titled by its name. *)
Theorem prompt_offers_interactive_targets reg :
  (∀ k, k ∈ choice_value <$> choices reg ↔
        ∃ t, get reg k = Some t ∧ interactive (options t) ≠ Some false)
  ∧ (choice_value <$> choices reg) `sublist_of` Object_keys reg
  ∧ Forall (λ c, choice_selected c = true ∧ choice_title c = choice_value c)
           (choices reg).
Proof.
  split_and!.
  - apply elem_of_choice_values.
  - rewrite choice_values, <-names_of_values.
    apply fmap_sublist, sublist_filter.
  - unfold choices. apply Forall_fmap, Forall_forall. by intros t _.
Qed.

Lemma execute_loaded inv st run st1 :
  existsSync inv = true → makefile_module inv = inr run →
  run st = (Fulfils, st1) →
  execute path_resolve to_string inv st
  = match evaluate path_resolve (chosen_targets inv (all_targets st1)) st1 with
    | Some (Accepted _, st2, evs) => Some (success, st2, evs)
    | Some (Rejected error, st2, evs) =>
        Some (failure to_string true error, st2, evs)
    | None => None
    end.
Proof. intros Hexists Hmodule Hrun. unfold execute. by rewrite Hexists, Hmodule, Hrun. Qed.

(** What [execute] runs when the makefile has been loaded and the resolver
    returns [required] for the chosen targets: the first targets of
    [required], in order, and all of them when the exit status is 0. *)
Lemma execute_runs inv st run st1 required :
  existsSync inv = true → makefile_module inv = inr run →
  run st = (Fulfils, st1) →
  returned (resolve (all_targets st1)
              (default [] (chosen_targets inv (all_targets st1))))
    = Some required →
  ∃ x st2 evs,
    execute path_resolve to_string inv st = Some (x, st2, evs)
    ∧ ev_target <$> evs = take (length evs) required
    ∧ (exit_code x = 0 → ev_target <$> evs = required).
Proof.
  intros Hexists Hmodule Hrun [picked Hres]%returned_Some.
  rewrite (execute_loaded _ _ _ _ Hexists Hmodule Hrun).
  destruct (evaluate_Return path_resolve _ _ _ _ Hres)
    as (o & w & evs & Hchain & ->).
  pose proof (task_chain_targets _ _ _ _ _ _ _ Hchain) as Htargets.
  destruct o as [r|e]; eexists _, _, _; (split; [reflexivity|]); split;
    [done| |done|done].
  intros _. by destruct (task_chain_Accepted _ _ _ _ _ _ _ Hchain).
Qed.



(** With names on the command line the prompt is not consulted, and neither
    the order of the names nor their repetition matters. *)
Theorem command_line_names inv inv' st :
  project_file inv' = project_file inv →
  existsSync inv' = existsSync inv →
  makefile_module inv' = makefile_module inv →
  args inv ≠ [] → args inv' ≠ [] →
  (∀ x, x ∈ args inv ↔ x ∈ args inv') →
  execute path_resolve to_string inv st = execute path_resolve to_string inv' st.
Proof.
  intros Hfile Hexists Hmodule Hne Hne' Hsame. unfold execute.
  rewrite Hfile, Hexists, Hmodule.
  destruct (existsSync inv); [|done].
  destruct (makefile_module inv) as [e|run]; [done|].
  destruct (run st) as [[|e|e] st1]; [|done..].
  unfold chosen_targets.
  rewrite !decide_False by (by rewrite length_zero_iff_nil).
  unfold evaluate, resolve. simpl.
  by rewrite (selected_same_names path_resolve (all_targets st1) _ _
                Hne Hne' Hsame).
Qed.

(** When the resolver throws for the chosen targets, it is for a name [x]
    that is not registered and that a registered target lists; [execute]
    exits with status 1 before any action has run, and the logger is given
    [make failed: Error: don't know how to build x], or, when
    [Object.prototype] has a member [x], the message of the [TypeError]. *)
Theorem unknown_dependency_report inv st run st1 e :
  existsSync inv = true → makefile_module inv = inr run →
  run st = (Fulfils, st1) →
  thrown (resolve (all_targets st1)
            (default [] (chosen_targets inv (all_targets st1)))) = Some e →
  ∃ x t, get (all_targets st1) x = None
    ∧ get (all_targets st1) (name t) = Some t
    ∧ x ∈ depends t
    ∧ execute path_resolve to_string inv st
      = Some ({| exit_code := 1;
                 report := Some (logger_error
                   (if inherited_member x then
                      "make failed: TypeError: Cannot read properties of undefined (reading 'forEach')"
                    else
                      "make failed: Error: don't know how to build " +:+ x)) |},
              st1, []).
Proof.
  intros Hexists Hmodule Hrun Hthrow%thrown_Some.
  destruct (resolve_Throw _ _ _ Hthrow)
    as (root & t & x & _ & _ & Ht & Hdep & Hx & ->).
  exists x, t. split_and!; [done..|].
  rewrite (execute_loaded _ _ _ _ Hexists Hmodule Hrun).
  rewrite (evaluate_Throw path_resolve _ _ _ Hthrow).
  by destruct (inherited_member x).
Qed.

End CliProperties.

(** ** The resolver and the executor together *)

Section Together.
Context {Heap Val : Type}.
Variable path_resolve : string → string → string.
Implicit Types (st : State Heap Val) (ev : Event Heap Val).
Implicit Types (required : list (TargetType Heap Val)).

Lemma evaluate_links (target_names : option (list string)) st o st' evs :
  evaluate path_resolve target_names st = Some (o, st', evs) →
  evs = [] ∨ ∃ required picked,
    resolve (all_targets st) (default [] target_names) = Return required picked
    ∧ ev_target <$> evs = take (length evs) required.
Proof.
  intros [(e & _ & _ & _ & ->)|(r & p & w & Hres & Hchain & _)]%evaluate_inv;
    [by left|].
  right. exists r, p. split; [done|]. by eapply task_chain_targets.
Qed.

Lemma link_in_required required evs j ev :
  ev_target <$> evs = take (length evs) required →
  evs !! j = Some ev → required !! j = Some (ev_target ev).
Proof.
  intros Htargets Hj.
  assert ((ev_target <$> evs) !! j = Some (ev_target ev)) as Hlook
    by (by rewrite list_lookup_fmap, Hj).
  rewrite Htargets in Hlook. by apply lookup_take_Some in Hlook as [? _].
Qed.

(** When the action of a target is called, the action of each of its
    dependencies that does not depend on that target in turn has been called
    before, once, and has fulfilled. *)
Theorem dependencies_built_first (target_names : option (list string))
    st o st' evs j ev D :
  evaluate path_resolve target_names st = Some (o, st', evs) →
  evs !! j = Some ev →
  D ∈ depends (ev_target ev) →
  ¬ reaches (all_targets st) D (name (ev_target ev)) →
  ∃ i ev_D, i < j ∧ evs !! i = Some ev_D
    ∧ get (all_targets st) D = Some (ev_target ev_D)
    ∧ ev_settlement ev_D = Fulfils.
Proof.
  intros Heval Hj HD Hacyclic.
  destruct (evaluate_links _ _ _ _ _ Heval)
    as [->|(required & picked & Hres & Htargets)]; [done|].
  pose proof (link_in_required _ _ _ _ Htargets Hj) as Hreq.
  destruct (required_order _ _ _ _ Hres j _ D Hreq HD Hacyclic)
    as (i & dep & Hlt & Hget & Hi).
  pose proof (lookup_lt_Some _ _ _ Hj) as Hlen.
  destruct (lookup_lt_is_Some_2 evs i) as [ev_D Hev]; [lia|].
  pose proof (link_in_required _ _ _ _ Htargets Hev) as Hreq'.
  rewrite Hi in Hreq'. injection Hreq' as ->.
  exists i, ev_D. split_and!; [done..|].
  destruct (lookup_lt_is_Some_2 evs (S i)) as [ev' Hnext]; [lia|].
  by destruct (evaluate_chained _ _ _ _ _ _ _ _ _ Heval Hev Hnext).
Qed.

(** [evaluate] calls the action of registered targets only, and only of
    targets that are a selected root or that a selected root depends on; no
    target has its action called twice. *)
Theorem runs_only_what_is_needed (target_names : option (list string))
    st o st' evs :
  evaluate path_resolve target_names st = Some (o, st', evs) →
  NoDup (ev_target <$> evs)
  ∧ ∀ ev, ev ∈ evs →
      get (all_targets st) (name (ev_target ev)) = Some (ev_target ev)
      ∧ ∃ root,
          root ∈ selected (all_targets st) (default [] target_names)
          ∧ reaches (all_targets st) root (name (ev_target ev)).
Proof.
  intros Heval.
  destruct (evaluate_links _ _ _ _ _ Heval)
    as [->|(required & picked & Hres & Htargets)].
  { split; [apply NoDup_nil_2 | by intros ev ?%elem_of_nil]. }
  split.
  - rewrite Htargets. eapply sublist_NoDup; [|apply sublist_take].
    by destruct (required_NoDup _ _ _ _ Hres).
  - intros ev [j Hj]%list_elem_of_lookup.
    apply (elem_of_required _ _ _ _ Hres).
    eapply list_elem_of_lookup_2. by eapply link_in_required.
Qed.

End Together.

(** ** The further properties on the example build definitions *)

Section MoreExamples.
Import Demo CliDemo.

Example makefile_registers : register_all declarations [] = built.
Proof. reflexivity. Qed.

Lemma target_new_name_witness :
  arg_name (declare "B" ["A"] None) ≠ "__proto__"
  ∧ get [A] (arg_name (declare "B" ["A"] None)) = None
  ∧ name <$> (target (declare "B" ["A"] None) [A]).2
    = (name <$> [A]) ++ [arg_name (declare "B" ["A"] None)]
  ∧ get (target (declare "B" ["A"] None) [A]).2 "B" = Some B.
Proof.
  destruct (target_new_name (declare "B" ["A"] None) [A]
              ltac:(discriminate) eq_refl)
    as (Hnames & Hget & _).
  split_and!; [discriminate | reflexivity | exact Hnames | exact Hget].
Defined.

Lemma target_calls_compose_witness :
  arg_name (declare "A" [] None) ≠ arg_name (declare "B" ["A"] None)
  ∧ (target (declare "A" [] None) (target (declare "A" [] None) [C]).2).2
    = (target (declare "A" [] None) [C]).2
  ∧ ∀ key,
      get (target (declare "B" ["A"] None)
             (target (declare "A" [] None) [C]).2).2 key
      = get (target (declare "A" [] None)
               (target (declare "B" ["A"] None) [C]).2).2 key.
Proof.
  assert (arg_name (declare "A" [] None)
          ≠ arg_name (declare "B" ["A"] None)) as Hne by discriminate.
  destruct (target_calls_compose (declare "A" [] None)
              (declare "B" ["A"] None) [C] Hne) as (Hidem & Hget & _).
  split_and!; [exact Hne | exact Hidem | exact Hget].
Defined.

Lemma resolver_terminates_witness :
  length cyclic < 10
  ∧ resolve cyclic ["A"] ≠ OutOfFuel
  ∧ push_each (pick_target_and_dependencies 10 cyclic)
      (selected cyclic ["A"]) [] ∅
    = resolve cyclic ["A"].
Proof.
  assert (length cyclic < 10) as Hlt by (simpl; lia).
  destruct (resolver_terminates cyclic ["A"] 10 Hlt) as [Hends Hsame].
  split_and!; [exact Hlt | exact Hends | exact Hsame].
Defined.

Lemma required_is_closure_witness :
  returned (resolve built ["C"]) = Some [A; B; tools; C_tools]
  ∧ ∀ t, t ∈ [A; B; tools; C_tools] ↔
      get built (name t) = Some t
      ∧ ∃ root, root ∈ selected built ["C"] ∧ reaches built root (name t).
Proof.
  split; [reflexivity|].
  exact (required_is_closure built ["C"] [A; B; tools; C_tools] eq_refl).
Defined.

Lemma selection_resolves_within_all_witness :
  returned (resolve built []) = Some [A; B; tools; C_tools; site]
  ∧ ∃ required,
      returned (resolve built ["B"]) = Some required
      ∧ required ⊆ [A; B; tools; C_tools; site].
Proof.
  split; [reflexivity|].
  exact (selection_resolves_within_all built ["B"]
           [A; B; tools; C_tools; site] eq_refl).
Defined.

Lemma ranked_acyclic {Heap Val : Type} (reg : Registry Heap Val)
    (ranking : string → nat) :
  (∀ a b, edge reg a b → ranking b < ranking a) →
  ∀ n, ¬ tc (edge reg) n n.
Proof.
  intros Hrank.
  assert (∀ a b, tc (edge reg) a b → ranking b < ranking a) as Htc.
  { induction 1 as [a b Hab|a b c Hab _ IH]; [by apply Hrank|].
    specialize (Hrank a b Hab). lia. }
  intros n Hn. specialize (Htc n n Hn). lia.
Qed.

Lemma registry_acyclic : ∀ n, ¬ tc (edge registry) n n.
Proof.
  apply (ranked_acyclic registry rank). intros a b (t & Hget & Hb).
  unfold registry in Hget. simpl in Hget.
  repeat case_decide; simplify_eq; simpl in Hb;
    repeat (apply elem_of_cons in Hb as [->|Hb]); try (by apply elem_of_nil in Hb);
    vm_compute; lia.
Qed.

Lemma acyclic_dependencies_first_witness :
  (∀ n, ¬ tc (edge registry) n n)
  ∧ returned (resolve registry ["C"]) = Some [A; B; C]
  ∧ dependencies_first registry [A; B; C].
Proof.
  split_and!; [exact registry_acyclic | reflexivity |].
  exact (acyclic_dependencies_first registry ["C"] [A; B; C]
           registry_acyclic eq_refl).
Defined.

Lemma accepted_with_last_target_witness :
  returned (resolve (all_targets (state registry)) (default [] (Some ["C"])))
    = Some [A; B; C]
  ∧ evaluate resolve_dir (Some ["C"]) (state registry)
    = Some (Accepted (Some C), state registry, [quiet A; quiet B; quiet C])
  ∧ Some C = list.last [A; B; C].
Proof.
  destruct (accepted_with_last_target resolve_dir (Some ["C"]) (state registry)
              [A; B; C] (Some C) (state registry)
              [quiet A; quiet B; quiet C] eq_refl eq_refl) as (Hlast & _).
  split_and!; [reflexivity | reflexivity | exact Hlast].
Defined.

Lemma link_working_directory_witness :
  evaluate resolve_dir (Some ["A"]) (state [rejecting])
    = Some (Rejected (Error "boom"), state [rejecting], [rejected_in_sub])
  ∧ rejected_in_sub ∈ [rejected_in_sub]
  ∧ ev_during rejected_in_sub = resolve_dir (ev_before rejected_in_sub) "sub"
  ∧ (¬ threw rejected_in_sub →
     ev_after rejected_in_sub = ev_before rejected_in_sub).
Proof.
  assert (rejected_in_sub ∈ [rejected_in_sub]) as Hin by left.
  split_and!; [reflexivity | exact Hin |..];
    apply (link_working_directory resolve_dir (Some ["A"]) (state [rejecting])
             _ _ _ rejected_in_sub eq_refl Hin).
Defined.

Lemma links_run_in_sequence_witness :
  evaluate resolve_dir (Some ["C"]) (state registry)
    = Some (Accepted (Some C), state registry, [quiet A; quiet B; quiet C])
  ∧ [quiet A; quiet B; quiet C] !! 0 = Some (quiet A)
  ∧ 1 < length [quiet A; quiet B; quiet C]
  ∧ ev_settlement (quiet A) = Fulfils
  ∧ ∃ ev', [quiet A; quiet B; quiet C] !! 1 = Some ev'
      ∧ ev_before ev' = ev_after (quiet A).
Proof.
  assert (1 < length [quiet A; quiet B; quiet C]) as Hlt by (simpl; lia).
  split_and!; [reflexivity | reflexivity | exact Hlt |..];
    apply (links_run_in_sequence resolve_dir (Some ["C"]) (state registry)
             _ _ _ 0 (quiet A) eq_refl eq_refl Hlt).
Defined.

Lemma evaluate_keeps_working_directory_witness :
  evaluate resolve_dir (Some ["A"]) (state [rejecting])
    = Some (Rejected (Error "boom"), state [rejecting], [rejected_in_sub])
  ∧ (∀ ev, ev ∈ [rejected_in_sub] →
       truthy (target_path (options (ev_target ev))) = true ∧ ¬ threw ev)
  ∧ cwd (process (state [rejecting])) = cwd (process (state [rejecting])).
Proof.
  assert (∀ ev, ev ∈ [rejected_in_sub] →
            truthy (target_path (options (ev_target ev))) = true ∧ ¬ threw ev)
    as Hall.
  { intros ev ->%list_elem_of_singleton. split; [reflexivity|].
    intros [e He]. discriminate. }
  split_and!; [reflexivity | exact Hall |].
  exact (evaluate_keeps_working_directory resolve_dir (Some ["A"])
           (state [rejecting]) _ (state [rejecting]) _ eq_refl Hall).
Defined.

Lemma dependencies_built_first_witness :
  evaluate resolve_dir (Some ["C"]) (state registry)
    = Some (Accepted (Some C), state registry, [quiet A; quiet B; quiet C])
  ∧ [quiet A; quiet B; quiet C] !! 1 = Some (quiet B)
  ∧ "A" ∈ depends (ev_target (quiet B))
  ∧ ¬ reaches (all_targets (state registry)) "A" (name (ev_target (quiet B)))
  ∧ ∃ i ev_D, i < 1 ∧ [quiet A; quiet B; quiet C] !! i = Some ev_D
      ∧ get (all_targets (state registry)) "A" = Some (ev_target ev_D)
      ∧ ev_settlement ev_D = Fulfils.
Proof.
  assert ("A" ∈ depends (ev_target (quiet B))) as Hdep by left.
  split_and!; [reflexivity | reflexivity | exact Hdep
              | exact A_independent_of_B |].
  exact (dependencies_built_first resolve_dir (Some ["C"]) (state registry)
           _ _ _ 1 (quiet B) "A" eq_refl eq_refl Hdep A_independent_of_B).
Defined.

Lemma runs_only_what_is_needed_witness :
  evaluate resolve_dir (Some ["B"]) (state built)
    = Some (Accepted (Some B), state built, [quiet A; quiet B])
  ∧ NoDup (ev_target <$> [quiet A; quiet B]).
Proof.
  destruct (runs_only_what_is_needed resolve_dir (Some ["B"]) (state built)
              _ _ _ eq_refl) as [Hnd _].
  split; [reflexivity | exact Hnd].
Defined.



Lemma command_line_names_witness :
  args (command ["C"; "B"] nothing makefile) ≠ []
  ∧ args (command ["B"; "C"; "B"] preselected makefile) ≠ []
  ∧ (∀ x, x ∈ args (command ["C"; "B"] nothing makefile)
          ↔ x ∈ args (command ["B"; "C"; "B"] preselected makefile))
  ∧ execute resolve_dir show (command ["C"; "B"] nothing makefile) fresh
    = execute resolve_dir show
        (command ["B"; "C"; "B"] preselected makefile) fresh.
Proof.
  assert (∀ x, x ∈ args (command ["C"; "B"] nothing makefile)
             ↔ x ∈ args (command ["B"; "C"; "B"] preselected makefile))
    as Hsame.
  { intros x. simpl. rewrite !elem_of_cons. tauto. }
  split_and!; [discriminate | discriminate | exact Hsame |].
  exact (command_line_names resolve_dir show
           (command ["C"; "B"] nothing makefile)
           (command ["B"; "C"; "B"] preselected makefile) fresh
           eq_refl eq_refl eq_refl ltac:(discriminate) ltac:(discriminate)
           Hsame).
Defined.

Lemma unknown_dependency_report_witness :
  broken_makefile fresh = (Fulfils, state incomplete)
  ∧ thrown (resolve incomplete
              (default [] (chosen_targets
                             (command ["D"] nothing broken_makefile)
                             incomplete)))
    = Some (Error "don't know how to build missing")
  ∧ ∃ x t, get incomplete x = None
      ∧ get incomplete (name t) = Some t
      ∧ x ∈ depends t
      ∧ execute resolve_dir show (command ["D"] nothing broken_makefile) fresh
        = Some ({| exit_code := 1;
                   report := Some (logger_error
                     (if inherited_member x then
                        "make failed: TypeError: Cannot read properties of undefined (reading 'forEach')"
                      else
                        "make failed: Error: don't know how to build " +:+ x)) |},
                state incomplete, []).
Proof.
  split_and!; [reflexivity | reflexivity |].
  exact (unknown_dependency_report resolve_dir show
           (command ["D"] nothing broken_makefile) fresh broken_makefile
           (state incomplete) (Error "don't know how to build missing")
           eq_refl eq_refl eq_refl eq_refl).
Defined.

(** The report on the makefile with the misspelt dependency. *)
Example execute_broken_makefile :
  execute resolve_dir show (command ["D"] nothing broken_makefile) fresh
  = Some ({| exit_code := 1;
             report := Some (logger_error
               "make failed: Error: don't know how to build missing") |},
          state incomplete, []).
Proof. reflexivity. Qed.

(** A missing makefile. *)
Example execute_without_makefile :
  execute resolve_dir show
    {| project_file := "makefile.js"; args := ["C"]; existsSync := false;
       makefile_module := inr makefile; prompts := nothing |} fresh
  = Some ({| exit_code := 1;
             report := Some (console_log
               "make failed: Error: makefile.js does not exist") |},
          fresh, []).
Proof. reflexivity. Qed.

End MoreExamples.

(** ** Names that are not registered *)

Section UnknownNames.
Context {Heap Val : Type}.
Variable path_resolve : string → string → string.
Variable to_string : Val → string.
Implicit Types (reg : Registry Heap Val) (st : State Heap Val).
Implicit Types (inv : Invocation Heap Val).

Lemma filter_agree {A} (P Q : A → Prop) `{!∀ x, Decision (P x)}
    `{!∀ x, Decision (Q x)} (l : list A) :
  (∀ x, x ∈ l → P x ↔ Q x) → filter P l = filter Q l.
Proof.
  induction l as [|x l IH]; intros Hagree; [done|].
  rewrite !filter_cons.
  rewrite IH by (intros y Hy; apply Hagree; by right).
  destruct (decide (P x)) as [HP|HP], (decide (Q x)) as [HQ|HQ]; try done;
    exfalso; apply (Hagree x) in HP || apply (Hagree x) in HQ; try done; left.
Qed.

Lemma selected_registered reg (target_names : list string) :
  filter (λ n, is_Some (get reg n)) target_names ≠ [] →
  selected reg target_names
  = selected reg (filter (λ n, is_Some (get reg n)) target_names).
Proof.
  intros Hsome.
  assert (target_names ≠ []) as Hne by (by intros ->).
  unfold selected. apply filter_agree. intros key Hkey%elem_of_Object_keys.
  rewrite !length_zero_iff_nil, list_elem_of_filter. tauto.
Qed.

(** Among several requested names, those that are not registered have no
    effect: as long as one requested name is registered, [evaluate] does
    what it does for the registered names alone. *)
Theorem unregistered_names_are_dropped (target_names : list string) st :
  filter (λ n, is_Some (get (all_targets st) n)) target_names ≠ [] →
  evaluate path_resolve (Some target_names) st
  = evaluate path_resolve
      (Some (filter (λ n, is_Some (get (all_targets st) n)) target_names)) st.
Proof.
  intros Hsome. unfold evaluate, resolve. simpl.
  by rewrite <-(selected_registered _ _ Hsome).
Qed.

(** When names are given on the command line and none of them is registered
    once the makefile has run, [execute] builds nothing and still exits with
    status 0. *)
Theorem unregistered_names_exit_zero inv st run st1 :
  existsSync inv = true → makefile_module inv = inr run →
  run st = (Fulfils, st1) →
  args inv ≠ [] →
  (∀ n, n ∈ args inv → get (all_targets st1) n = None) →
  execute path_resolve to_string inv st = Some (success, st1, []).
Proof.
  intros Hexists Hmodule Hrun Hne Hnone.
  rewrite (execute_loaded _ _ _ _ _ _ Hexists Hmodule Hrun).
  unfold chosen_targets. rewrite decide_False by (by rewrite length_zero_iff_nil).
  unfold evaluate, resolve. simpl. rewrite (selected_nil _ _ Hne Hnone). simpl.
  by destruct st1.
Qed.

End UnknownNames.

Section UnknownNamesExamples.
Import Demo CliDemo.

Lemma unregistered_names_are_dropped_witness :
  filter (λ n, is_Some (get (all_targets (state registry)) n)) ["X"; "B"] ≠ []
  ∧ evaluate resolve_dir (Some ["X"; "B"]) (state registry)
    = evaluate resolve_dir
        (Some (filter (λ n, is_Some (get (all_targets (state registry)) n))
                 ["X"; "B"])) (state registry).
Proof.
  assert (filter (λ n, is_Some (get (all_targets (state registry)) n))
            ["X"; "B"] ≠ []) as Hsome by (vm_compute; discriminate).
  split; [exact Hsome|].
  exact (unregistered_names_are_dropped resolve_dir ["X"; "B"]
           (state registry) Hsome).
Defined.

(** A misspelt target name on the command line. *)
Lemma unregistered_names_exit_zero_witness :
  args (command ["tols"] nothing makefile) ≠ []
  ∧ (∀ n, n ∈ args (command ["tols"] nothing makefile) →
          get (all_targets (state built)) n = None)
  ∧ execute resolve_dir show (command ["tols"] nothing makefile) fresh
    = Some (success, state built, []).
Proof.
  assert (∀ n, n ∈ args (command ["tols"] nothing makefile) →
               get (all_targets (state built)) n = None) as Hnone.
  { intros n ->%list_elem_of_singleton. reflexivity. }
  split_and!; [discriminate | exact Hnone |].
  exact (unregistered_names_exit_zero resolve_dir show
           (command ["tols"] nothing makefile) fresh makefile (state built)
           eq_refl eq_refl eq_refl ltac:(discriminate) Hnone).
Defined.

End UnknownNamesExamples.
